(** * PyFENG, [pyfeng/heston.py]: analytic moments of the Heston model

    A shallow embedding of [HestonABC.var_mv], [HestonABC.avgvar_mv],
    [HestonABC.fair_strike_var] and [HestonUncorrBallRoma1994.price].

    The methods are written once, over an interface of the arithmetic
    they use ([Arith]), in the order of operations of the source.  The
    interface is instantiated twice:
    - [Ideal]: exact real arithmetic, extended with the special values
      [inf], [-inf] and [nan] that numpy returns where Python raises;
    - [Binary64]: IEEE 754 double precision (the kernel's primitive
      floats), with the library function [np.exp] left as a parameter.

    Model parameters and method arguments are Python [float]s; the
    values numpy returns are [np.float64] scalars.  Both are binary64
    numbers and share one carrier; they differ in the operations that
    Python makes fail: a division whose two operands are Python floats
    raises [ZeroDivisionError] on a zero divisor and [float ** 2] raises
    [OverflowError] when the square leaves the range, where the numpy
    operations return [inf] or [nan] (with a [RuntimeWarning]).  Which
    of the two applies at each place of the source is fixed by the types
    of the operands there and is noted next to each definition. *)

From Stdlib Require Import ZArith Reals Lra Lia String List Bool.
From Stdlib Require Import Floats DecimalString.
Import ListNotations.

Set Implicit Arguments.

(** ** Exceptions and results *)

Inductive exn : Type :=
| ZeroDivisionError           (* Python float division by zero *)
| OverflowError               (* Python float power out of range *)
| ValueError (msg : string).  (* the [raise] statement of [price] *)

Inductive result (A : Type) : Type :=
| Ok (a : A)
| Raise (e : exn).

Arguments Ok {A} a.
Arguments Raise {A} e.

(** The exceptions of the code's own [raise] statements, as opposed to
    those the interpreter raises from inside an arithmetic operation. *)
Definition raised_by_check (e : exn) : bool :=
  match e with
  | ValueError _ => true
  | ZeroDivisionError | OverflowError => false
  end.

Definition bind {A B : Type} (r : result A) (k : A -> result B) : result B :=
  match r with
  | Ok a => k a
  | Raise e => Raise e
  end.

Notation "x <- r ;; k" := (bind r (fun x => k))
  (at level 61, r at next level, right associativity).

(** ** The arithmetic the methods use *)

Class Arith (F : Type) : Type := {
  of_Z : Z -> F;               (* an integer literal, converted *)
  add : F -> F -> F;
  sub : F -> F -> F;
  mul : F -> F -> F;
  div : F -> F -> F;           (* numpy's division: total *)
  neg : F -> F;                (* unary minus *)
  np_exp : F -> F;
  np_sqrt : F -> F;
  is_zero : F -> bool;         (* [x == 0.0] *)
  square_overflows : F -> bool;(* [x ** 2] leaves the range of a float *)
  isclose0 : F -> bool         (* [np.isclose(x, 0.0)] *)
}.

Declare Scope arith_scope.
Delimit Scope arith_scope with A.
Infix "+" := add : arith_scope.
Infix "-" := sub : arith_scope.
Infix "*" := mul : arith_scope.
Infix "/" := div : arith_scope.

Section Generic.

Context {F : Type} {AF : Arith F}.

Local Open Scope arith_scope.

Definition c1 : F := of_Z 1.
Definition c2 : F := of_Z 2.
Definition c4 : F := of_Z 4.
Definition c8 : F := of_Z 8.
(** [0.5] and [2.5] are dyadic: the quotients below are these literals. *)
Definition c0_5 : F := of_Z 1 / of_Z 2.
Definition c2_5 : F := of_Z 5 / of_Z 2.

(** [x / y] with both operands Python floats. *)
Definition pydiv (x y : F) : result F :=
  if is_zero y then Raise ZeroDivisionError else Ok (x / y).

(** [x ** 2] with [x] a Python float. *)
Definition pypow2 (x : F) : result F :=
  if square_overflows x then Raise OverflowError else Ok (x * x).

(** [x ** 2] with [x] a numpy scalar. *)
Definition nppow2 (x : F) : F := x * x.

(** The parameters an [SvABC] object holds. *)
Record HestonABC : Type := {
  sigma : F;
  vov : F;
  rho : F;
  mr : F;
  theta : F;
  intr : F;
  divr : F
}.

Definition with_rho (r : F) (p : HestonABC) : HestonABC :=
  {| sigma := sigma p; vov := vov p; rho := r; mr := mr p;
     theta := theta p; intr := intr p; divr := divr p |}.

(** [HestonABC.var_mv], lines 23-27.  [expo] is a numpy scalar, so
    every quotient here has a numpy dividend; [vov ** 2] is a power of
    a Python float. *)
Definition var_mv (p : HestonABC) (var0 dt : F) : result (F * F) :=
  let expo := np_exp (neg (mr p) * dt) in
  let m := theta p + (var0 - theta p) * expo in
  let s2 := var0 * expo + theta p * (c1 - expo) / c2 in
  vov2 <- pypow2 (vov p) ;;
  let s2 := s2 * (vov2 * (c1 - expo) / mr p) in
  Ok (m, s2).

(** [HestonABC.avgvar_mv], lines 42-48.  The quotients of lines 45-46
    have numpy dividends ([theta/2] divides by a literal); line 47
    divides and squares Python floats, after the mean and the bracket
    have been computed. *)
Definition avgvar_mv (p : HestonABC) (var0 texp : F) : result (F * F) :=
  let mr_t := mr p * texp in
  let e_mr := np_exp (neg mr_t) in
  let x0 := var0 - theta p in
  let mean := theta p + x0 * (c1 - e_mr) / mr_t in
  let var := (theta p - c2 * x0 * e_mr)
             + (c1 - e_mr)
               * (var0 - c2_5 * theta p + (var0 - theta p / c2) * e_mr)
               / mr_t in
  q <- pydiv (vov p) mr_t ;;
  q2 <- pypow2 q ;;
  let var := var * (q2 * texp) in
  Ok (mean, var).

(** [HestonABC.fair_strike_var], lines 62-83; [aa] is [None] or a
    Python number.  Python floats are divided in [mr/aa] (line 72),
    [tmp/(4*aa)] (line 76), [vov/mr] (line 78) and [2*x0**2/mr]
    (line 81), and squared in [tmp**2] and [x0**2] (line 81); the other
    quotients have a numpy operand or a literal divisor, and [e_mr**2]
    is a numpy power. *)
Definition fair_strike_var (p : HestonABC) (texp : F) (aa : option F)
  : result F :=
  let var0 := sigma p in
  (* continuously monitored fair strike (same as mean of avgvar) *)
  let mr_t := mr p * texp in
  let e_mr := np_exp (neg mr_t) in
  let x0 := var0 - theta p in
  let strike := theta p + x0 * (c1 - e_mr) / mr_t in
  match aa with
  | None => Ok strike
  | Some aa =>
    (* adjustment for discrete monitoring *)
    mr_a <- pydiv (mr p) aa ;;
    let e_mr_a := np_exp (neg mr_a) in
    let tmp := theta p - c2 * intr p in
    t4 <- pydiv tmp (c4 * aa) ;;
    let strike := strike + t4 * (tmp + c2 * x0 * (c1 - e_mr) / mr_t) in
    tmp <- pydiv (vov p) (mr p) ;;
    let strike := strike + theta p * tmp * (tmp / c4 - rho p)
                           * (c1 - (c1 - e_mr_a) / mr_a) in
    let strike := strike + x0 * tmp * (tmp / c2 - rho p) * (c1 - e_mr) / mr_t
                           * (c1 + mr_a / (c1 - e_mr_a)) in
    tmp2 <- pypow2 tmp ;;
    x02 <- pypow2 x0 ;;
    x0m <- pydiv (c2 * x02) (mr p) ;;
    let strike := strike - (tmp2 * (mr p - c2 * var0) + x0m)
                           * (c1 - nppow2 e_mr) / (c8 * mr_t)
                           * (c1 - e_mr_a) / (c1 + e_mr_a) in
    Ok strike
  end.

(** [HestonUncorrBallRoma1994]: the parameters and the class attribute
    [order] (2 unless overridden). *)
Record HestonUncorrBallRoma1994 : Type := {
  params :> HestonABC;
  order : Z
}.

Definition with_order (n : Z) (m : HestonUncorrBallRoma1994)
  : HestonUncorrBallRoma1994 :=
  {| params := params m; order := n |}.

Definition with_rho' (r : F) (m : HestonUncorrBallRoma1994)
  : HestonUncorrBallRoma1994 :=
  {| params := with_rho r (params m); order := order m |}.

(** The flat-volatility pricer [bsm.Bsm(vol, intr=.., divr=..)] lives in
    another module; its two methods are parameters, each a function of
    the constructor's arguments and of [(strike, spot, texp, cp)]. *)
Variable Bsm_price : F -> F -> F -> F -> F -> F -> Z -> F.
Variable Bsm_d2_var : F -> F -> F -> F -> F -> F -> Z -> F.

(** The text [f"{x}"] of a float, used only in the printed line. *)
Variable repr : F -> string.

Definition string_of_Z (n : Z) : string :=
  NilZero.string_of_int (Z.to_int n).

(** [HestonUncorrBallRoma1994.price], lines 96-111: what is printed,
    and the price or the exception. *)
Definition price (m : HestonUncorrBallRoma1994) (strike spot texp : F)
  (cp : Z) : list string * result F :=
  let out :=
    if negb (isclose0 (rho m))
    then ["Pricing ignores rho = " ++ repr (rho m) ++ "."]%string
    else [] in
  (out,
   mv <- avgvar_mv m (sigma m) texp ;;
   let '(avgvar, var) := mv in
   let price :=
     Bsm_price (np_sqrt avgvar) (intr m) (divr m) strike spot texp cp in
   if (order m =? 2)%Z then
     Ok (price + c0_5 * var
                 * Bsm_d2_var (np_sqrt avgvar) (intr m) (divr m)
                     strike spot texp cp)
   else if (order m >? 2)%Z then
     Raise (ValueError
              ("Not implemented for approx order: "
               ++ string_of_Z (order m))%string)
   else Ok price).

End Generic.

(** ** Exact arithmetic with numpy's special values *)

Inductive xreal : Type :=
| Fin (r : R)
| PInf
| NInf
| NaN.

Module X.

(** The infinity of the sign of [a]; [nan] for [a = 0] (zeros carry no
    sign here, so [a / 0] is taken with a positive zero). *)
Definition signed_inf (a : R) : xreal :=
  if Rlt_dec 0 a then PInf else if Rlt_dec a 0 then NInf else NaN.

Definition opp (x : xreal) : xreal :=
  match x with
  | Fin a => Fin (- a)
  | PInf => NInf
  | NInf => PInf
  | NaN => NaN
  end.

Definition add (x y : xreal) : xreal :=
  match x, y with
  | Fin a, Fin b => Fin (a + b)
  | NaN, _ | _, NaN => NaN
  | PInf, NInf | NInf, PInf => NaN
  | PInf, _ | _, PInf => PInf
  | NInf, _ | _, NInf => NInf
  end.

Definition sub (x y : xreal) : xreal := add x (opp y).

Definition mul (x y : xreal) : xreal :=
  match x, y with
  | Fin a, Fin b => Fin (a * b)
  | NaN, _ | _, NaN => NaN
  | Fin a, PInf | PInf, Fin a => signed_inf a
  | Fin a, NInf | NInf, Fin a => signed_inf (- a)
  | PInf, PInf | NInf, NInf => PInf
  | PInf, NInf | NInf, PInf => NInf
  end.

Definition div (x y : xreal) : xreal :=
  match x, y with
  | Fin a, Fin b => if Req_dec_T b 0 then signed_inf a else Fin (a / b)
  | NaN, _ | _, NaN => NaN
  | Fin _, PInf | Fin _, NInf => Fin 0
  | PInf, Fin b => if Rlt_dec b 0 then NInf else PInf
  | NInf, Fin b => if Rlt_dec b 0 then PInf else NInf
  | PInf, PInf | PInf, NInf | NInf, PInf | NInf, NInf => NaN
  end.

Definition exp (x : xreal) : xreal :=
  match x with
  | Fin a => Fin (Rtrigo_def.exp a)
  | PInf => PInf
  | NInf => Fin 0
  | NaN => NaN
  end.

Definition sqrt (x : xreal) : xreal :=
  match x with
  | Fin a => if Rlt_dec a 0 then NaN else Fin (R_sqrt.sqrt a)
  | PInf => PInf
  | NInf => NaN
  | NaN => NaN
  end.

Definition is_zero (x : xreal) : bool :=
  match x with
  | Fin a => if Req_dec_T a 0 then true else false
  | _ => false
  end.

(** [np.isclose(x, 0.0)] with the default tolerances: [|x| <= 1e-8]. *)
Definition isclose0 (x : xreal) : bool :=
  match x with
  | Fin a => if Rle_dec (Rabs a) (/ 100000000) then true else false
  | _ => false
  end.

End X.

(** Exact arithmetic has no range to leave: [x ** 2] never fails. *)
#[export] Instance Ideal : Arith xreal := {|
  of_Z := fun z => Fin (IZR z);
  add := X.add;
  sub := X.sub;
  mul := X.mul;
  div := X.div;
  neg := X.opp;
  np_exp := X.exp;
  np_sqrt := X.sqrt;
  is_zero := X.is_zero;
  square_overflows := fun _ => false;
  isclose0 := X.isclose0
|}.

(** Real-valued parameters, as an [HestonABC] of the exact arithmetic. *)
Record HestonR : Type := {
  sigmaR : R;
  vovR : R;
  rhoR : R;
  mrR : R;
  thetaR : R;
  intrR : R;
  divrR : R
}.

Definition lift (p : HestonR) : HestonABC (F := xreal) :=
  {| sigma := Fin (sigmaR p); vov := Fin (vovR p); rho := Fin (rhoR p);
     mr := Fin (mrR p); theta := Fin (thetaR p); intr := Fin (intrR p);
     divr := Fin (divrR p) |}.

(** ** IEEE 754 double precision *)

#[local] Set Warnings "-inexact-float".

Module B64.

Definition of_Z (z : Z) : float :=
  match z with
  | Z0 => 0%float
  | Zpos _ => PrimFloat.of_uint63 (Uint63.of_Z z)
  | Zneg _ => PrimFloat.opp (PrimFloat.of_uint63 (Uint63.of_Z (- z)))
  end.

Definition is_zero (x : float) : bool := PrimFloat.eqb x 0%float.

(** C's [pow] reports a range error, which Python raises as
    [OverflowError], when the square of a finite number is infinite. *)
Definition square_overflows (x : float) : bool :=
  PrimFloat.is_infinity (PrimFloat.mul x x) && negb (PrimFloat.is_infinity x).

(** [abs(x - 0.0) <= atol + rtol * abs(0.0)], [atol = 1e-8], [rtol = 1e-5]. *)
Definition isclose0 (x : float) : bool :=
  PrimFloat.leb (PrimFloat.abs (PrimFloat.sub x 0%float))
    (PrimFloat.add 1e-8%float (PrimFloat.mul 1e-5%float (PrimFloat.abs 0%float))).

End B64.

(** [np.exp] is a function of the C library; it is a parameter here. *)
Definition Binary64 (exp64 : float -> float) : Arith float := {|
  of_Z := B64.of_Z;
  add := PrimFloat.add;
  sub := PrimFloat.sub;
  mul := PrimFloat.mul;
  div := PrimFloat.div;
  neg := PrimFloat.opp;
  np_exp := exp64;
  np_sqrt := PrimFloat.sqrt;
  is_zero := B64.is_zero;
  square_overflows := B64.square_overflows;
  isclose0 := B64.isclose0
|}.

(** ** The methods in exact arithmetic *)

Section IdealForms.

Local Open Scope R_scope.

Variable p : HestonR.

Let th := thetaR p.
Let k := mrR p.

(** The values the methods compute on finite input, as real
    expressions. *)
Definition var_mean_R (var0 dt : R) : R :=
  th + (var0 - th) * exp (- k * dt).

Definition var_var_R (var0 dt : R) : R :=
  (var0 * exp (- k * dt) + th * (1 - exp (- k * dt)) / 2)
  * (vovR p * vovR p * (1 - exp (- k * dt)) / k).

Definition avg_mean_R (var0 texp : R) : R :=
  th + (var0 - th) * (1 - exp (- (k * texp))) / (k * texp).

Definition avg_var_R (var0 texp : R) : R :=
  ((th - 2 * (var0 - th) * exp (- (k * texp)))
   + (1 - exp (- (k * texp)))
     * (var0 - 5 / 2 * th + (var0 - th / 2) * exp (- (k * texp)))
     / (k * texp))
  * (vovR p / (k * texp) * (vovR p / (k * texp)) * texp).

(** The discretely monitored strike, lines 72-81, on finite input. *)
Definition fair_disc_R (texp aa : R) : R :=
  let var0 := sigmaR p in
  let mr_t := k * texp in
  let e_mr := exp (- mr_t) in
  let x0 := var0 - th in
  let strike := th + x0 * (1 - e_mr) / mr_t in
  let mr_a := k / aa in
  let e_mr_a := exp (- mr_a) in
  let tmp := th - 2 * intrR p in
  let strike :=
    strike + tmp / (4 * aa) * (tmp + 2 * x0 * (1 - e_mr) / mr_t) in
  let tmp := vovR p / k in
  let strike :=
    strike + th * tmp * (tmp / 4 - rhoR p) * (1 - (1 - e_mr_a) / mr_a) in
  let strike :=
    strike + x0 * tmp * (tmp / 2 - rhoR p) * (1 - e_mr) / mr_t
             * (1 + mr_a / (1 - e_mr_a)) in
  strike - (tmp * tmp * (k - 2 * var0) + 2 * (x0 * x0) / k)
           * (1 - e_mr * e_mr) / (8 * mr_t)
           * (1 - e_mr_a) / (1 + e_mr_a).

End IdealForms.




(** [1 - x + x^2/2 - exp (- x)], non-negative for [0 <= x]. *)
Definition psi (x : R) : R := (1 - x + x * x / 2 - exp (- x))%R.

(** ** Parameter sets used in examples *)

(** The scenario of the documentation: [mr = 1.0], [theta = 0.04],
    [vov = 0.2], [rho = 0.0], [intr = 0.01], [divr = 0.0],
    [sigma = 0.04]. *)
Definition scenario : HestonR :=
  {| sigmaR := 4 / 100; vovR := 2 / 10; rhoR := 0; mrR := 1;
     thetaR := 4 / 100; intrR := 1 / 100; divrR := 0 |}.


(** Unit parameters at the long-run level ([sigma = theta]), with
    correlation [r]. *)
Definition unit_params (r : R) : HestonR :=
  {| sigmaR := 1; vovR := 1; rhoR := r; mrR := 1;
     thetaR := 1; intrR := 0; divrR := 0 |}.

(** Binary64 parameters away from the long-run level. *)
Definition off_level64 : HestonABC (F := float) :=
  {| sigma := 0.09%float; vov := 0.2%float; rho := 0%float; mr := 1%float;
     theta := 0.04%float; intr := 0.01%float; divr := 0%float |}.


(** A stand-in for the flat-volatility pricer in examples. *)
Definition stub_price (vol i d strike spot texp : xreal) (cp : Z) : xreal :=
  vol.

Definition stub_d2_var (vol i d strike spot texp : xreal) (cp : Z) : xreal :=
  Fin 1.

Definition stub_repr (x : xreal) : string := "rho"%string.

(** A pricer object on real parameters, of approximation order [n]. *)
Definition ball_roma (p : HestonR) (n : Z)
  : HestonUncorrBallRoma1994 (F := xreal) :=
  {| params := lift p; order := n |}.

(** The scenario without volatility of the variance. *)
Definition no_vov : HestonR :=
  {| sigmaR := 9 / 100; vovR := 0; rhoR := 0; mrR := 1;
     thetaR := 4 / 100; intrR := 1 / 100; divrR := 0 |}.

(** Parameters away from the long-run level, with a negative
    correlation. *)
Definition off_level : HestonR :=
  {| sigmaR := 9 / 100; vovR := 2 / 10; rhoR := -1 / 2; mrR := 1;
     thetaR := 4 / 100; intrR := 1 / 100; divrR := 0 |}.

(** The exponential where it rounds to one (arguments of size below
    [2^-54]); used at [-1e-17] only. *)
Definition exp_rounding_to_one (x : float) : float := 1%float.

(** Real parameters with the correlation replaced. *)
Definition with_rhoR (r : R) (p : HestonR) : HestonR :=
  {| sigmaR := sigmaR p; vovR := vovR p; rhoR := r; mrR := mrR p;
     thetaR := thetaR p; intrR := intrR p; divrR := divrR p |}.

(** The stationary variance of the variance process. *)
Definition stationary_var_R (p : HestonR) : R :=
  (thetaR p * (vovR p * vovR p) / (2 * mrR p))%R.

(** What the adjustment of lines 72-81 leaves of the strike when the
    monitoring frequency grows: the continuous strike plus twice the
    factor of line 80 that does not depend on [aa]. *)
Definition fair_disc_limit_R (p : HestonR) (texp : R) : R :=
  (avg_mean_R p (sigmaR p) texp
   + 2 * ((sigmaR p - thetaR p) * (vovR p / mrR p)
          * (vovR p / mrR p / 2 - rhoR p)
          * (1 - exp (- (mrR p * texp))) / (mrR p * texp)))%R.

(** The four factors of lines 76-81 that do not depend on [aa] (the
    first divided by [4*mr]), and the sum of their sizes, which bounds
    the distance of the discrete strike from [fair_disc_limit_R] in
    units of [mr/aa]. *)
Definition disc_c1 (p : HestonR) (texp : R) : R :=
  ((thetaR p - 2 * intrR p)
   * ((thetaR p - 2 * intrR p)
      + 2 * (sigmaR p - thetaR p) * (1 - exp (- (mrR p * texp)))
        / (mrR p * texp))
   / (4 * mrR p))%R.

Definition disc_c2 (p : HestonR) : R :=
  (thetaR p * (vovR p / mrR p) * (vovR p / mrR p / 4 - rhoR p))%R.

Definition disc_c3 (p : HestonR) (texp : R) : R :=
  ((sigmaR p - thetaR p) * (vovR p / mrR p)
   * (vovR p / mrR p / 2 - rhoR p)
   * (1 - exp (- (mrR p * texp))) / (mrR p * texp))%R.

Definition disc_c4 (p : HestonR) (texp : R) : R :=
  ((vovR p / mrR p * (vovR p / mrR p) * (mrR p - 2 * sigmaR p)
    + 2 * ((sigmaR p - thetaR p) * (sigmaR p - thetaR p)) / mrR p)
   * (1 - exp (- (mrR p * texp)) * exp (- (mrR p * texp)))
   / (8 * (mrR p * texp)))%R.

Definition disc_rate (p : HestonR) (texp : R) : R :=
  (Rabs (disc_c1 p texp) + Rabs (disc_c2 p) / 2
   + Rabs (disc_c3 p texp) + Rabs (disc_c4 p texp))%R.

(** The coefficient of [- rho] in the discretely monitored strike
    (lines 79-80). *)
Definition rho_slope_R (p : HestonR) (texp aa : R) : R :=
  (vovR p / mrR p
   * (thetaR p * (1 - (1 - exp (- (mrR p / aa))) / (mrR p / aa))
      + (sigmaR p - thetaR p) * (1 - exp (- (mrR p * texp))) / (mrR p * texp)
        * (1 + mrR p / aa / (1 - exp (- (mrR p / aa))))))%R.

(** * Properties *)

Lemma xdiv_fin (a b : R) : b <> 0%R -> X.div (Fin a) (Fin b) = Fin (a / b).
Proof.
  intros Hb. unfold X.div. destruct (Req_dec_T b 0) as [E | _]; [contradiction | reflexivity].
Qed.

Lemma xis_zero_fin_false (a : R) : a <> 0%R -> X.is_zero (Fin a) = false.
Proof.
  intros Ha. unfold X.is_zero. destruct (Req_dec_T a 0); [contradiction | reflexivity].
Qed.

Lemma xis_zero_fin_true : X.is_zero (Fin 0) = true.
Proof.
  unfold X.is_zero. destruct (Req_dec_T 0 0) as [_ | N]; [reflexivity | now elim N].
Qed.

Lemma pydiv_fin (a b : R) :
  b <> 0%R -> pydiv (Fin a) (Fin b) = Ok (Fin (a / b)).
Proof.
  intros Hb. unfold pydiv. cbn [is_zero Ideal div].
  now rewrite xis_zero_fin_false, xdiv_fin.
Qed.

Lemma pydiv_zero (a : xreal) : pydiv a (Fin 0) = Raise ZeroDivisionError.
Proof.
  unfold pydiv. cbn [is_zero Ideal]. now rewrite xis_zero_fin_true.
Qed.

Lemma two_neq_0 : 2%R <> 0%R.
Proof. lra. Qed.

(** Rewriting of the exact operations on finite values; [nonzero]
    proves that a divisor is not zero. *)
Ltac fin_step :=
  cbn [of_Z add sub mul div neg np_exp np_sqrt square_overflows Ideal
       X.add X.sub X.mul X.opp X.exp
       sigma vov rho mr theta intr divr lift bind].

Ltac nonzero :=
  solve [ assumption | apply two_neq_0 | lra ].

Ltac fin_norm :=
  unfold c0_5, c2_5, c1, c2, c4, c8, nppow2, pypow2;
  repeat (progress fin_step
          || (rewrite xdiv_fin by nonzero)
          || (rewrite pydiv_fin by nonzero)).

Lemma var_mv_ideal (p : HestonR) (var0 dt : R) :
  mrR p <> 0%R ->
  var_mv (lift p) (Fin var0) (Fin dt)
  = Ok (Fin (var_mean_R p var0 dt), Fin (var_var_R p var0 dt)).
Proof.
  intros Hk. unfold var_mv. fin_norm. reflexivity.
Qed.

Lemma avgvar_mv_ideal (p : HestonR) (var0 texp : R) :
  (mrR p * texp)%R <> 0%R ->
  avgvar_mv (lift p) (Fin var0) (Fin texp)
  = Ok (Fin (avg_mean_R p var0 texp), Fin (avg_var_R p var0 texp)).
Proof.
  intros Hk. unfold avgvar_mv. fin_norm. reflexivity.
Qed.

Lemma exp_neg_lt_1 (x : R) : (0 < x)%R -> (exp (- x) < 1)%R.
Proof.
  intros Hx. rewrite <- exp_0. apply exp_increasing. lra.
Qed.

Lemma exp_neg_neq_1 (x : R) : x <> 0%R -> (1 - exp (- x))%R <> 0%R.
Proof.
  intros Hx E.
  assert (H : exp (- x) = exp 0) by (rewrite exp_0; lra).
  apply exp_inv in H. lra.
Qed.

Lemma fair_strike_var_cont_ideal (p : HestonR) (texp : R) :
  (mrR p * texp)%R <> 0%R ->
  fair_strike_var (lift p) (Fin texp) None
  = Ok (Fin (avg_mean_R p (sigmaR p) texp)).
Proof.
  intros Hk. unfold fair_strike_var. fin_norm. reflexivity.
Qed.

Lemma fair_strike_var_disc_ideal (p : HestonR) (texp aa : R) :
  mrR p <> 0%R -> texp <> 0%R -> aa <> 0%R ->
  fair_strike_var (lift p) (Fin texp) (Some (Fin aa))
  = Ok (Fin (fair_disc_R p texp aa)).
Proof.
  intros Hk Ht Ha.
  assert (Hkt : (mrR p * texp)%R <> 0%R) by (apply Rmult_integral_contrapositive_currified; assumption).
  assert (Hka : (mrR p / aa)%R <> 0%R).
  { unfold Rdiv. apply Rmult_integral_contrapositive_currified; [assumption|].
    now apply Rinv_neq_0_compat. }
  assert (H4 : (4 * aa)%R <> 0%R) by (apply Rmult_integral_contrapositive_currified; [lra | assumption]).
  assert (H8 : (8 * (mrR p * texp))%R <> 0%R) by (apply Rmult_integral_contrapositive_currified; [lra | assumption]).
  assert (He : (1 - exp (- (mrR p / aa)))%R <> 0%R) by now apply exp_neg_neq_1.
  assert (Hp : (1 + exp (- (mrR p / aa)))%R <> 0%R).
  { pose proof (exp_pos (- (mrR p / aa))). lra. }
  unfold fair_strike_var. fin_norm. reflexivity.
Qed.

(** ** Real analysis behind the sign of the variance *)

Section Analysis.

Local Open Scope R_scope.

Lemma deriv_nonneg_le (f f' : R -> R) (a b : R) :
  (forall x, derivable_pt_lim f x (f' x)) ->
  (forall x, a <= x <= b -> 0 <= f' x) ->
  a <= b -> f a <= f b.
Proof.
  intros Hd Hpos [Hlt | ->]; [| lra].
  destruct (MVT_cor2 f f' a b Hlt (fun c _ => Hd c)) as [c [E Hc]].
  assert (0 <= f' c) by (apply Hpos; lra).
  assert (0 <= f' c * (b - a)) by (apply Rmult_le_pos; lra).
  lra.
Qed.

Lemma dlim_exp_neg (x : R) :
  derivable_pt_lim (fun t => exp (- t)) x (- exp (- x)).
Proof.
  replace (- exp (- x)) with (exp (- x) * (-1)) by ring.
  exact (derivable_pt_lim_comp (fun t => - t) exp x (-1) (exp (- x))
           (derivable_pt_lim_opp id x 1 (derivable_pt_lim_id x))
           (derivable_pt_lim_exp (- x))).
Qed.


Lemma exp_ge_1_plus (x : R) : 1 + x <= exp x.
Proof.
  destruct (Req_dec x 0) as [-> | Hx].
  - rewrite exp_0. lra.
  - left. now apply exp_ineq1.
Qed.






Lemma dlim_psi (x : R) : derivable_pt_lim psi x (- 1 + x + exp (- x)).
Proof.
  unfold psi.
  assert (did : derivable_pt_lim id x 1) by apply derivable_pt_lim_id.
  assert (d2 : derivable_pt_lim (fun t => t * t / 2) x x).
  { assert (d := derivable_pt_lim_mult id id x 1 1 did did).
    intros eps Heps. destruct (d eps Heps) as [delta Hd]. exists delta.
    intros h Hh Hhd. specialize (Hd h Hh Hhd). unfold mult_fct, id in Hd.
    replace (((x + h) * (x + h) / 2 - x * x / 2) / h - x) with (h / 2) by (field; exact Hh).
    replace (((x + h) * (x + h) - x * x) / h - (1 * x + x * 1)) with h in Hd by (field; exact Hh).
    unfold Rdiv. rewrite Rabs_mult, (Rabs_pos_eq (/ 2)) by lra.
    pose proof (Rabs_pos h). lra. }
  replace (- 1 + x + exp (- x)) with (0 - 1 + x - - exp (- x)) by ring.
  apply (derivable_pt_lim_minus (fun t => 1 - t + t * t / 2) (fun t => exp (- t)));
    [| apply dlim_exp_neg].
  apply (derivable_pt_lim_plus (fun t => 1 - t) (fun t => t * t / 2)); [| exact d2].
  apply (derivable_pt_lim_minus (fun _ => 1) id); [apply derivable_pt_lim_const | exact did].
Qed.

Lemma psi_nonneg (x : R) : 0 <= x -> 0 <= psi x.
Proof.
  intros Hx.
  assert (E0 : psi 0 = 0) by (unfold psi; rewrite Ropp_0, exp_0; field).
  rewrite <- E0.
  apply (@deriv_nonneg_le psi (fun t => - 1 + t + exp (- t))); [apply dlim_psi | | assumption].
  intros t _. pose proof (exp_ge_1_plus (- t)). lra.
Qed.

(** [1 - x/2 <= (1 - exp (- x)) / x <= 1] for [0 < x]. *)
Lemma ratio_bounds (x : R) :
  0 < x -> 1 - x / 2 <= (1 - exp (- x)) / x <= 1.
Proof.
  intros Hx.
  pose proof (exp_ge_1_plus (- x)) as Hlo.
  assert (Hhi : 0 <= psi x) by (apply psi_nonneg; lra).
  unfold psi in Hhi.
  split.
  - apply (Rmult_le_reg_r x); [assumption |].
    replace ((1 - exp (- x)) / x * x) with (1 - exp (- x)) by (field; lra).
    lra.
  - apply (Rmult_le_reg_r x); [assumption |].
    replace ((1 - exp (- x)) / x * x) with (1 - exp (- x)) by (field; lra).
    lra.
Qed.




(** The mean of the average variance is within
    [|var0 - theta| * mr * texp / 2] of [var0]. *)
Lemma avg_mean_R_near (p : HestonR) (var0 texp : R) :
  0 < mrR p -> 0 < texp ->
  Rabs (avg_mean_R p var0 texp - var0)
  <= Rabs (var0 - thetaR p) * (mrR p * texp) / 2.
Proof.
  intros Hk Ht. unfold avg_mean_R.
  set (x := mrR p * texp).
  assert (Hx : 0 < x) by now apply Rmult_lt_0_compat.
  destruct (ratio_bounds Hx) as [Hlo Hhi].
  replace (thetaR p + (var0 - thetaR p) * (1 - exp (- x)) / x - var0)
    with ((var0 - thetaR p) * ((1 - exp (- x)) / x - 1)) by (field; lra).
  rewrite Rabs_mult.
  replace (Rabs (var0 - thetaR p) * x / 2) with (Rabs (var0 - thetaR p) * (x / 2)) by field.
  apply Rmult_le_compat_l; [apply Rabs_pos |].
  apply Rabs_le. lra.
Qed.

End Analysis.

(** ** The continuous fair strike and the mean of the average variance *)

(** In every arithmetic: when [avgvar_mv] returns, [fair_strike_var]
    without monitoring frequency returns its mean. *)
Lemma fair_strike_var_cont_generic {F : Type} {AF : Arith F}
  (p : HestonABC) (texp m v : F) :
  avgvar_mv p (sigma p) texp = Ok (m, v) ->
  fair_strike_var p texp None = Ok m.
Proof.
  unfold avgvar_mv, fair_strike_var, bind.
  destruct (pydiv (vov p) _); [| discriminate].
  destruct (pypow2 a); [| discriminate].
  intros H. injection H as <- _. reflexivity.
Qed.



(** ** The approximate price *)

Section Price.

Context {F : Type} {AF : Arith F}.
Variable Bsm_price Bsm_d2_var : F -> F -> F -> F -> F -> F -> Z -> F.
Variable repr : F -> string.

Local Open Scope arith_scope.

Local Abbreviation price_of := (price Bsm_price Bsm_d2_var repr).

(** The flat-volatility price at volatility [sqrt(avgvar)] and its
    second derivative in the variance. *)
Local Abbreviation base m avgvar strike spot texp cp :=
  (Bsm_price (np_sqrt avgvar) (intr m) (divr m) strike spot texp cp).

Local Abbreviation d2 m avgvar strike spot texp cp :=
  (Bsm_d2_var (np_sqrt avgvar) (intr m) (divr m) strike spot texp cp).

Lemma price_result (m : HestonUncorrBallRoma1994) (strike spot texp : F)
  (cp : Z) (avgvar var : F) :
  avgvar_mv m (sigma m) texp = Ok (avgvar, var) ->
  snd (price_of m strike spot texp cp)
  = if (order m =? 2)%Z then
      Ok (base m avgvar strike spot texp cp
          + c0_5 * var * d2 m avgvar strike spot texp cp)
    else if (order m >? 2)%Z then
      Raise (ValueError ("Not implemented for approx order: "
                         ++ string_of_Z (order m))%string)
    else Ok (base m avgvar strike spot texp cp).
Proof.
  intros H. unfold price. cbn [snd]. rewrite H. reflexivity.
Qed.

(** C2: the price of order 2 is the price of order 0, the external
    flat-volatility price at volatility [sqrt(avgvar)], plus
    [0.5*var*d2_var(strike, spot, texp, cp)], where
    [(avgvar, var) = avgvar_mv(sigma, texp)]. *)
Theorem price_order_2_is_order_0_plus_correction
  (m : HestonUncorrBallRoma1994) (strike spot texp : F) (cp : Z)
  (avgvar var : F) :
  avgvar_mv m (sigma m) texp = Ok (avgvar, var) ->
  exists price0 : F,
    snd (price_of (with_order 0 m) strike spot texp cp) = Ok price0
    /\ price0 = Bsm_price (np_sqrt avgvar) (intr m) (divr m)
                  strike spot texp cp
    /\ snd (price_of (with_order 2 m) strike spot texp cp)
       = Ok (price0
             + c0_5 * var
               * Bsm_d2_var (np_sqrt avgvar) (intr m) (divr m)
                   strike spot texp cp).
Proof.
  intros H. eexists. split; [| split; [reflexivity |]].
  - rewrite (@price_result (with_order 0 m) _ _ _ _ avgvar var) by exact H.
    reflexivity.
  - rewrite (@price_result (with_order 2 m) _ _ _ _ avgvar var) by exact H.
    reflexivity.
Qed.

(** C5: orders 0 and 1 return the flat-volatility price unmodified, an
    order above 2 raises the error naming the order, and only order 2
    adds the corrective term. *)
Theorem price_order_dispatch
  (m : HestonUncorrBallRoma1994) (strike spot texp : F) (cp : Z)
  (avgvar var : F) :
  avgvar_mv m (sigma m) texp = Ok (avgvar, var) ->
  let result := snd (price_of m strike spot texp cp) in
  let price0 := base m avgvar strike spot texp cp in
  let price2 := price0 + c0_5 * var * d2 m avgvar strike spot texp cp in
  let unsupported :=
    Raise (ValueError ("Not implemented for approx order: "
                       ++ string_of_Z (order m))%string) in
  (order m = 0%Z \/ order m = 1%Z -> result = Ok price0)
  /\ ((2 < order m)%Z -> result = unsupported)
  /\ (order m = 2%Z -> result = Ok price2)
  /\ (order m <> 2%Z -> result = Ok price0 \/ result = unsupported).
Proof.
  intros H. cbv zeta.
  rewrite (@price_result m strike spot texp cp avgvar var H).
  destruct (Z.eqb_spec (order m) 2) as [E2 | N2];
    [| destruct (Z.gtb_spec (order m) 2) as [G2 | L2]].
  - repeat split; intros; try lia; reflexivity.
  - repeat split; intros; try lia; try reflexivity. now right.
  - repeat split; intros; try lia; try reflexivity. now left.
Qed.

(** C8: the price does not depend on [rho]; [rho] decides only whether
    a line is printed, and the computation goes on either way. *)
Theorem price_ignores_rho
  (m : HestonUncorrBallRoma1994) (r : F) (strike spot texp : F) (cp : Z) :
  snd (price_of (with_rho' r m) strike spot texp cp)
  = snd (price_of m strike spot texp cp)
  /\ fst (price_of m strike spot texp cp)
     = if isclose0 (rho m) then []
       else ["Pricing ignores rho = " ++ repr (rho m) ++ "."]%string.
Proof.
  split.
  - reflexivity.
  - unfold price. cbn [fst]. now destruct (isclose0 (rho m)).
Qed.

End Price.

Example string_of_Z_3 : string_of_Z 3 = "3"%string.
Proof. reflexivity. Qed.

Lemma avgvar_mv_scenario :
  avgvar_mv (lift scenario) (Fin (sigmaR scenario)) (Fin 1)
  = Ok (Fin (avg_mean_R scenario (sigmaR scenario) 1),
        Fin (avg_var_R scenario (sigmaR scenario) 1)).
Proof.
  apply avgvar_mv_ideal. simpl. lra.
Defined.

Lemma price_order_2_scenario :
  exists price0 : xreal,
    snd (price stub_price stub_d2_var stub_repr
           (with_order 0 (ball_roma scenario 2)) (Fin 100) (Fin 100) (Fin 1) 1)
    = Ok price0
    /\ price0 = stub_price
                  (np_sqrt (Fin (avg_mean_R scenario (sigmaR scenario) 1)))
                  (Fin (intrR scenario)) (Fin (divrR scenario))
                  (Fin 100) (Fin 100) (Fin 1) 1
    /\ snd (price stub_price stub_d2_var stub_repr
              (with_order 2 (ball_roma scenario 2)) (Fin 100) (Fin 100) (Fin 1) 1)
       = Ok (add price0
               (mul (mul c0_5 (Fin (avg_var_R scenario (sigmaR scenario) 1)))
                  (stub_d2_var
                     (np_sqrt (Fin (avg_mean_R scenario (sigmaR scenario) 1)))
                     (Fin (intrR scenario)) (Fin (divrR scenario))
                     (Fin 100) (Fin 100) (Fin 1) 1))).
Proof.
  exact (@price_order_2_is_order_0_plus_correction xreal Ideal
           stub_price stub_d2_var stub_repr (ball_roma scenario 2)
           (Fin 100) (Fin 100) (Fin 1) 1%Z _ _ avgvar_mv_scenario).
Defined.

Lemma price_order_3_scenario :
  snd (price stub_price stub_d2_var stub_repr
         (ball_roma scenario 3) (Fin 100) (Fin 100) (Fin 1) 1)
  = Raise (ValueError "Not implemented for approx order: 3").
Proof.
  apply (@price_order_dispatch xreal Ideal stub_price stub_d2_var stub_repr
           (ball_roma scenario 3) (Fin 100) (Fin 100) (Fin 1) 1%Z
           _ _ avgvar_mv_scenario).
  simpl. lia.
Defined.

(** ** Correlation and the fair strike *)

(** In every arithmetic the continuous strike does not read [rho]. *)
Lemma fair_strike_var_cont_ignores_rho {F : Type} {AF : Arith F}
  (p : HestonABC) (r texp : F) :
  fair_strike_var (with_rho r p) texp None = fair_strike_var p texp None.
Proof. reflexivity. Qed.

(** At the long-run level, with unit parameters, one observation a year
    and one year to expiry, the strike is affine in [rho] with slope
    [- exp (-1)]. *)
Lemma fair_disc_R_unit (r : R) :
  fair_disc_R (unit_params r) 1 1
  = (fair_disc_R (unit_params 0) 1 1 - r * exp (- (1)))%R.
Proof.
  unfold fair_disc_R. cbn [sigmaR vovR rhoR mrR thetaR intrR unit_params].
  replace (1 * 1)%R with 1%R by ring.
  replace (1 / 1)%R with 1%R by field.
  assert (He : (1 - exp (- (1)))%R <> 0%R) by (apply exp_neg_neq_1; lra).
  assert (Hp : (1 + exp (- (1)))%R <> 0%R) by (pose proof (exp_pos (- (1))); lra).
  field. split; assumption.
Qed.

(** C10: with a monitoring frequency there are two parameter sets that
    differ only in [rho] and have different strikes; without one the
    strike is the same for every [rho]. *)
Theorem fair_strike_var_rho_dependence :
  (exists (p : HestonR) (r1 r2 texp aa : R),
      (0 < mrR p)%R /\ (0 < vovR p)%R /\ (0 < texp)%R
      /\ fair_strike_var (with_rho (Fin r1) (lift p)) (Fin texp) (Some (Fin aa))
         <> fair_strike_var (with_rho (Fin r2) (lift p)) (Fin texp) (Some (Fin aa)))
  /\ (forall (p : HestonABC (F := xreal)) (r texp : xreal),
         fair_strike_var (with_rho r p) texp None = fair_strike_var p texp None).
Proof.
  split; [| intros; reflexivity].
  exists (unit_params 0), 0%R, 1%R, 1%R, 1%R.
  cbn [mrR vovR unit_params].
  repeat split; try lra.
  change (with_rho (Fin 0) (lift (unit_params 0))) with (lift (unit_params 0)).
  change (with_rho (Fin 1) (lift (unit_params 0))) with (lift (unit_params 1)).
  rewrite (@fair_strike_var_disc_ideal (unit_params 0) 1 1),
          (@fair_strike_var_disc_ideal (unit_params 1) 1 1)
    by (cbn [mrR unit_params]; lra).
  rewrite (fair_disc_R_unit 1).
  intros H. injection H as H.
  pose proof (exp_pos (- (1))). lra.
Qed.

(** ** Two evaluations in double precision *)

(** [np.exp] is a parameter of the binary64 arithmetic; the two facts
    used about it are [exp(-0.0) = 1.0], which the C standard fixes,
    and [exp(-1e-17) = 1.0]: the exact value [1 - 1e-17 + ...] lies
    nearer to [1.0] than to the next double below it, [1 - 2^-53]. *)

(** [avgvar_mv(0.09, 1e-17)] with [mr = 1], [theta = 0.04], [vov = 0.2]:
    [1 - e_mr] is [0.0], so the mean is [theta] and the bracket of line
    46 is [theta - 2*x0 = -0.06]. *)
Lemma avgvar_mv_binary64_tiny_texp (exp64 : float -> float) :
  exp64 (-1e-17)%float = 1%float ->
  @avgvar_mv float (Binary64 exp64) off_level64 0.09%float 1e-17%float
  = Ok (0.04%float, (-240000000000000)%float).
Proof.
  intros He. unfold avgvar_mv.
  cbn [mr theta vov off_level64 mul neg np_exp Binary64].
  change (PrimFloat.opp (PrimFloat.mul 1 1e-17))%float with (-1e-17)%float.
  rewrite He. vm_compute. reflexivity.
Qed.


(** ** Sign of the variance *)




(** ** A zero time step *)




(** ** Arguments outside the domain *)

(** C6, as amended: a monitoring frequency of zero makes
    [fair_strike_var] raise Python's [ZeroDivisionError], from the
    division [mr/aa] that opens the adjustment for discrete monitoring;
    no strike is returned. *)
Theorem fair_strike_var_zero_frequency {F : Type} {AF : Arith F}
  (p : HestonABC) (texp aa : F) :
  is_zero aa = true ->
  fair_strike_var p texp (Some aa) = Raise ZeroDivisionError
  /\ pydiv (mr p) aa = Raise ZeroDivisionError.
Proof.
  intros Hz.
  assert (E : pydiv (mr p) aa = Raise ZeroDivisionError)
    by (unfold pydiv; now rewrite Hz).
  split; [| exact E].
  unfold fair_strike_var. now rewrite E.
Qed.

Lemma fair_strike_var_zero_frequency_scenario :
  fair_strike_var (lift scenario) (Fin 1) (Some (Fin 0))
  = Raise ZeroDivisionError
  /\ pydiv (mr (lift scenario)) (Fin 0) = Raise ZeroDivisionError.
Proof.
  apply (@fair_strike_var_zero_frequency xreal Ideal (lift scenario) (Fin 1) (Fin 0)).
  apply xis_zero_fin_true.
Defined.

(** C6, as stated, fails: the exception at [aa = 0] is not one raised
    by a check of the arguments; it is the division's own. *)
Lemma fair_strike_var_zero_frequency_no_check :
  ~ exists e : exn,
      fair_strike_var (lift scenario) (Fin 1) (Some (Fin 0)) = Raise e
      /\ raised_by_check e = true.
Proof.
  intros [e [H Hc]].
  unfold fair_strike_var in H. rewrite pydiv_zero in H.
  cbn [bind] in H. injection H as <-. discriminate.
Qed.




(** ** The mean of the average variance near [texp = 0] *)

(** C9, as amended: [avgvar_mv] evaluates the closed form
    [theta + (var0 - theta)*(1 - exp(-mr*texp))/(mr*texp)] at every
    [texp > 0], however small, with no threshold and no series in its
    place; in exact arithmetic this mean tends to [var0] as [texp]
    tends to [0+]. *)
Theorem avgvar_mean_limit_exact (p : HestonR) (var0 : R) :
  (0 < mrR p)%R ->
  forall eps : R, (0 < eps)%R ->
  exists delta : R, (0 < delta)%R /\
    forall texp : R, (0 < texp < delta)%R ->
    exists mean v : R,
      avgvar_mv (lift p) (Fin var0) (Fin texp) = Ok (Fin mean, Fin v)
      /\ mean = (thetaR p
                 + (var0 - thetaR p) * (1 - exp (- (mrR p * texp)))
                   / (mrR p * texp))%R
      /\ (Rabs (mean - var0) < eps)%R.
Proof.
  intros Hk eps Heps.
  set (A := (Rabs (var0 - thetaR p) * mrR p)%R).
  assert (HA : (0 <= A)%R).
  { unfold A. apply Rmult_le_pos; [apply Rabs_pos | lra]. }
  exists (2 * eps / (A + 1))%R. split.
  - apply Rdiv_lt_0_compat; lra.
  - intros texp [Ht0 Ht].
    exists (avg_mean_R p var0 texp), (avg_var_R p var0 texp).
    split; [| split; [reflexivity |]].
    + apply avgvar_mv_ideal. apply Rgt_not_eq. now apply Rmult_lt_0_compat.
    + apply Rle_lt_trans with (Rabs (var0 - thetaR p) * (mrR p * texp) / 2)%R;
        [now apply avg_mean_R_near |].
      assert (Hd : (texp * (A + 1) < 2 * eps)%R).
      { apply (Rmult_lt_compat_r (A + 1)) in Ht; [| lra].
        replace (2 * eps / (A + 1) * (A + 1))%R with (2 * eps)%R in Ht by (field; lra).
        exact Ht. }
      replace (Rabs (var0 - thetaR p) * (mrR p * texp) / 2)%R
        with (A * texp / 2)%R by (unfold A; field).
      assert (0 <= A * texp)%R by (apply Rmult_le_pos; lra).
      nra.
Qed.

Lemma avgvar_mean_limit_exact_scenario :
  (0 < mrR scenario)%R
  /\ forall eps : R, (0 < eps)%R ->
     exists delta : R, (0 < delta)%R /\
       forall texp : R, (0 < texp < delta)%R ->
       exists mean v : R,
         avgvar_mv (lift scenario) (Fin (9 / 100)) (Fin texp)
         = Ok (Fin mean, Fin v)
         /\ mean = (thetaR scenario
                    + (9 / 100 - thetaR scenario)
                      * (1 - exp (- (mrR scenario * texp)))
                      / (mrR scenario * texp))%R
         /\ (Rabs (mean - 9 / 100) < eps)%R.
Proof.
  assert (Hk : (0 < mrR scenario)%R) by (simpl; lra).
  split; [exact Hk |].
  exact (@avgvar_mean_limit_exact scenario (9 / 100) Hk).
Defined.

(** C9, as stated, fails: nothing replaces the closed form for small
    [mr*texp].  In double precision, with [theta = 0.04] and
    [var0 = 0.09], at [texp = 1e-17], where the exponential of [-1e-17]
    rounds to 1, the difference [1 - e_mr] cancels to zero and the mean
    returned is [theta = 0.04], not within [0.01] of [var0]. *)
Lemma avgvar_mean_cancels_binary64 :
  ~ exists exp64 : float -> float,
      exp64 (-1e-17)%float = 1%float
      /\ exists m v : float,
           @avgvar_mv float (Binary64 exp64) off_level64 0.09%float 1e-17%float
           = Ok (m, v)
           /\ PrimFloat.leb (PrimFloat.abs (PrimFloat.sub m 0.09)) 0.01 = true.
Proof.
  intros [e [He [m [v [H Hm]]]]].
  rewrite (avgvar_mv_binary64_tiny_texp e He) in H.
  injection H as <- <-.
  vm_compute in Hm. discriminate.
Qed.

(** * Further properties of the methods *)

(** ** Where the means lie *)

Section MoreAnalysis.

Local Open Scope R_scope.

Lemma exp_neg_le_1 (x : R) : 0 <= x -> exp (- x) <= 1.
Proof.
  intros [Hx | <-].
  - left. now apply exp_neg_lt_1.
  - rewrite Ropp_0, exp_0. lra.
Qed.

(** [th + (v - th) * w] lies between [v] and [th] for [0 <= w <= 1]. *)
Lemma convex_between (th v w : R) :
  0 <= w <= 1 -> Rmin v th <= th + (v - th) * w <= Rmax v th.
Proof.
  intros [Hw0 Hw1].
  unfold Rmin, Rmax. destruct (Rle_dec v th) as [Hle | Hgt]; nra.
Qed.

Lemma ratio_pos (x : R) : 0 < x -> 0 < (1 - exp (- x)) / x.
Proof.
  intros Hx. apply Rdiv_lt_0_compat; [| assumption].
  pose proof (exp_neg_lt_1 Hx). lra.
Qed.

Lemma var_mean_R_between (p : HestonR) (var0 dt : R) :
  0 < mrR p -> 0 <= dt ->
  Rmin var0 (thetaR p) <= var_mean_R p var0 dt <= Rmax var0 (thetaR p).
Proof.
  intros Hk Hdt. unfold var_mean_R. apply convex_between.
  replace (- mrR p * dt) with (- (mrR p * dt)) by ring.
  split; [left; apply exp_pos | apply exp_neg_le_1; nra].
Qed.

Lemma avg_mean_R_between (p : HestonR) (var0 texp : R) :
  0 < mrR p -> 0 < texp ->
  Rmin var0 (thetaR p) <= avg_mean_R p var0 texp <= Rmax var0 (thetaR p).
Proof.
  intros Hk Ht. unfold avg_mean_R.
  assert (Hx : 0 < mrR p * texp) by now apply Rmult_lt_0_compat.
  replace (thetaR p + (var0 - thetaR p) * (1 - exp (- (mrR p * texp))) / (mrR p * texp))
    with (thetaR p + (var0 - thetaR p) * ((1 - exp (- (mrR p * texp))) / (mrR p * texp)))
    by (field; lra).
  apply convex_between.
  pose proof (ratio_pos Hx). pose proof (ratio_bounds Hx). lra.
Qed.

End MoreAnalysis.

(** X1: in exact arithmetic, for [mr > 0], the mean returned by
    [var_mv] ([dt >= 0]) and the mean returned by [avgvar_mv]
    ([texp > 0]) lie between [var0] and [theta]. *)
Theorem means_between_var0_and_theta (p : HestonR) (var0 dt texp : R) :
  (0 < mrR p)%R -> (0 <= dt)%R -> (0 < texp)%R ->
  (exists m v : R,
      var_mv (lift p) (Fin var0) (Fin dt) = Ok (Fin m, Fin v)
      /\ (Rmin var0 (thetaR p) <= m <= Rmax var0 (thetaR p))%R)
  /\ (exists m v : R,
         avgvar_mv (lift p) (Fin var0) (Fin texp) = Ok (Fin m, Fin v)
         /\ (Rmin var0 (thetaR p) <= m <= Rmax var0 (thetaR p))%R).
Proof.
  intros Hk Hdt Ht. split.
  - exists (var_mean_R p var0 dt), (var_var_R p var0 dt). split.
    + apply var_mv_ideal. lra.
    + now apply var_mean_R_between.
  - exists (avg_mean_R p var0 texp), (avg_var_R p var0 texp). split.
    + apply avgvar_mv_ideal. apply Rgt_not_eq. now apply Rmult_lt_0_compat.
    + now apply avg_mean_R_between.
Qed.

Lemma means_between_var0_and_theta_scenario :
  (exists m v : R,
      var_mv (lift scenario) (Fin (9 / 100)) (Fin 2) = Ok (Fin m, Fin v)
      /\ (Rmin (9 / 100) (thetaR scenario) <= m
          <= Rmax (9 / 100) (thetaR scenario))%R)
  /\ (exists m v : R,
         avgvar_mv (lift scenario) (Fin (9 / 100)) (Fin 1) = Ok (Fin m, Fin v)
         /\ (Rmin (9 / 100) (thetaR scenario) <= m
             <= Rmax (9 / 100) (thetaR scenario))%R).
Proof.
  apply (@means_between_var0_and_theta scenario (9 / 100) 2 1); simpl; lra.
Defined.

(** ** Two steps of [var_mv] *)

Lemma var_mean_R_two_steps (p : HestonR) (var0 d1 d2 : R) :
  var_mean_R p (var_mean_R p var0 d1) d2 = var_mean_R p var0 (d1 + d2).
Proof.
  unfold var_mean_R.
  replace (- mrR p * (d1 + d2))%R with (- mrR p * d1 + - mrR p * d2)%R by ring.
  rewrite exp_plus. ring.
Qed.

Lemma var_var_R_two_steps (p : HestonR) (var0 d1 d2 : R) :
  mrR p <> 0%R ->
  var_var_R p var0 (d1 + d2)
  = (var_var_R p (var_mean_R p var0 d1) d2
     + exp (- mrR p * d2) * exp (- mrR p * d2) * var_var_R p var0 d1)%R.
Proof.
  intros Hk. unfold var_var_R, var_mean_R.
  replace (- mrR p * (d1 + d2))%R with (- mrR p * d1 + - mrR p * d2)%R by ring.
  rewrite exp_plus. field. exact Hk.
Qed.

(** X2: in exact arithmetic, for [mr <> 0], two steps of [var_mv]
    compose.  With [(m1, v1) = var_mv(var0, d1)] and
    [(m2, v2) = var_mv(m1, d2)], [var_mv(var0, d1 + d2)] returns the mean
    [m2] and the variance [v2 + exp(-mr*d2)^2 * v1] (the tower property
    and the law of total variance). *)
Theorem var_mv_two_steps (p : HestonR) (var0 d1 d2 : R) :
  mrR p <> 0%R ->
  exists m1 v1 m2 v2 : R,
    var_mv (lift p) (Fin var0) (Fin d1) = Ok (Fin m1, Fin v1)
    /\ var_mv (lift p) (Fin m1) (Fin d2) = Ok (Fin m2, Fin v2)
    /\ var_mv (lift p) (Fin var0) (Fin (d1 + d2))
       = Ok (Fin m2,
             Fin (v2 + exp (- mrR p * d2) * exp (- mrR p * d2) * v1)).
Proof.
  intros Hk.
  exists (var_mean_R p var0 d1), (var_var_R p var0 d1),
         (var_mean_R p (var_mean_R p var0 d1) d2),
         (var_var_R p (var_mean_R p var0 d1) d2).
  split; [now apply var_mv_ideal |].
  split; [now apply var_mv_ideal |].
  rewrite var_mv_ideal by exact Hk.
  now rewrite var_mean_R_two_steps, <- var_var_R_two_steps.
Qed.

Lemma var_mv_two_steps_scenario :
  exists m1 v1 m2 v2 : R,
    var_mv (lift scenario) (Fin (9 / 100)) (Fin 1) = Ok (Fin m1, Fin v1)
    /\ var_mv (lift scenario) (Fin m1) (Fin 2) = Ok (Fin m2, Fin v2)
    /\ var_mv (lift scenario) (Fin (9 / 100)) (Fin (1 + 2))
       = Ok (Fin m2,
             Fin (v2 + exp (- mrR scenario * 2) * exp (- mrR scenario * 2) * v1)).
Proof.
  apply (@var_mv_two_steps scenario (9 / 100) 1 2); simpl; lra.
Defined.

(** ** The stationary regime of [var_mv] *)

Lemma exp_neg_le_inv (x : R) : (0 <= x)%R -> (exp (- x) <= / (1 + x))%R.
Proof.
  intros Hx. rewrite exp_Ropp.
  apply Rinv_le_contravar; [lra | apply exp_ge_1_plus].
Qed.

Lemma var_mean_R_gap (p : HestonR) (var0 dt : R) :
  (var_mean_R p var0 dt - thetaR p
   = (var0 - thetaR p) * exp (- (mrR p * dt)))%R.
Proof.
  unfold var_mean_R.
  replace (- mrR p * dt)%R with (- (mrR p * dt))%R by ring. ring.
Qed.

Lemma var_var_R_gap (p : HestonR) (var0 dt : R) :
  mrR p <> 0%R ->
  (var_var_R p var0 dt - stationary_var_R p
   = vovR p * vovR p / mrR p
     * (var0 * (1 - exp (- (mrR p * dt)))
        - thetaR p / 2 * (2 - exp (- (mrR p * dt))))
     * exp (- (mrR p * dt)))%R.
Proof.
  intros Hk. unfold var_var_R, stationary_var_R.
  replace (- mrR p * dt)%R with (- (mrR p * dt))%R by ring.
  field. exact Hk.
Qed.

(** X3: in exact arithmetic, for [mr > 0], as [dt] grows the mean
    returned by [var_mv] tends to [theta] and the variance to
    [theta * vov^2 / (2 * mr)]. *)
Theorem var_mv_stationary_limit (p : HestonR) (var0 : R) :
  (0 < mrR p)%R ->
  forall eps : R, (0 < eps)%R ->
  exists T : R, (0 <= T)%R /\
    forall dt : R, (T < dt)%R ->
    exists m v : R,
      var_mv (lift p) (Fin var0) (Fin dt) = Ok (Fin m, Fin v)
      /\ (Rabs (m - thetaR p) < eps)%R
      /\ (Rabs (v - thetaR p * (vovR p * vovR p) / (2 * mrR p)) < eps)%R.
Proof.
  intros Hk eps Heps.
  set (k := mrR p) in *.
  set (c := (vovR p * vovR p / k)%R).
  assert (Hc : (0 <= c)%R).
  { unfold c, Rdiv. apply Rmult_le_pos; [apply Rle_0_sqr | left; now apply Rinv_0_lt_compat]. }
  set (M := (Rabs (var0 - thetaR p) + c * (Rabs var0 + Rabs (thetaR p)))%R).
  assert (HM : (0 <= M)%R).
  { unfold M. pose proof (Rabs_pos (var0 - thetaR p)). pose proof (Rabs_pos var0).
    pose proof (Rabs_pos (thetaR p)).
    assert (0 <= c * (Rabs var0 + Rabs (thetaR p)))%R by (apply Rmult_le_pos; lra).
    lra. }
  exists ((M + 1) / (eps * k))%R. split.
  { unfold Rdiv. apply Rmult_le_pos; [lra |].
    left. apply Rinv_0_lt_compat. now apply Rmult_lt_0_compat. }
  intros dt Hdt.
  assert (Hek : (0 < eps * k)%R) by now apply Rmult_lt_0_compat.
  assert (HT : (0 <= (M + 1) / (eps * k))%R).
  { unfold Rdiv. apply Rmult_le_pos; [lra | left; now apply Rinv_0_lt_compat]. }
  assert (Hdt0 : (0 < dt)%R) by lra.
  assert (Hx : (0 < k * dt)%R) by now apply Rmult_lt_0_compat.
  set (e := exp (- (k * dt))).
  assert (He0 : (0 < e)%R) by apply exp_pos.
  assert (He1 : (e <= 1)%R) by (apply exp_neg_le_1; lra).
  assert (HeM : (M * e < eps)%R).
  { assert (Hinv : (e <= / (1 + k * dt))%R) by (apply exp_neg_le_inv; lra).
    assert (Hbig : (M + 1 < eps * (1 + k * dt))%R).
    { apply (Rmult_lt_compat_r (eps * k)) in Hdt; [| exact Hek].
      replace ((M + 1) / (eps * k) * (eps * k))%R with (M + 1)%R in Hdt
        by (field; split; lra).
      lra. }
    assert (Hpos : (0 < 1 + k * dt)%R) by lra.
    assert (Hle : (M * e <= M * / (1 + k * dt))%R) by now apply Rmult_le_compat_l.
    apply Rle_lt_trans with (M * / (1 + k * dt))%R; [exact Hle |].
    apply (Rmult_lt_reg_r (1 + k * dt)); [exact Hpos |].
    replace (M * / (1 + k * dt) * (1 + k * dt))%R with M by (field; lra).
    lra. }
  exists (var_mean_R p var0 dt), (var_var_R p var0 dt).
  split; [apply var_mv_ideal; fold k; lra |].
  split.
  - rewrite var_mean_R_gap. fold k e.
    rewrite Rabs_mult, (Rabs_pos_eq e) by lra.
    apply Rle_lt_trans with (M * e)%R; [| exact HeM].
    apply Rmult_le_compat_r; [lra |].
    unfold M. pose proof (Rabs_pos var0). pose proof (Rabs_pos (thetaR p)).
    assert (0 <= c * (Rabs var0 + Rabs (thetaR p)))%R by (apply Rmult_le_pos; lra).
    lra.
  - change (thetaR p * (vovR p * vovR p) / (2 * mrR p))%R with (stationary_var_R p).
    rewrite var_var_R_gap by (fold k; lra). fold k e c.
    rewrite !Rabs_mult, (Rabs_pos_eq e), (Rabs_pos_eq c) by lra.
    apply Rle_lt_trans with (M * e)%R; [| exact HeM].
    apply Rmult_le_compat_r; [lra |].
    assert (Hin : (Rabs (var0 * (1 - e) - thetaR p / 2 * (2 - e))
                   <= Rabs var0 + Rabs (thetaR p))%R).
    { unfold Rminus at 1.
      eapply Rle_trans; [apply Rabs_triang |].
      rewrite Rabs_Ropp, !Rabs_mult.
      rewrite (Rabs_pos_eq (1 - e)), (Rabs_pos_eq (2 - e)) by lra.
      pose proof (Rabs_pos var0). pose proof (Rabs_pos (thetaR p)).
      unfold Rdiv. rewrite Rabs_mult, (Rabs_pos_eq (/ 2)) by lra.
      nra. }
    unfold M. pose proof (Rabs_pos (var0 - thetaR p)).
    assert (c * Rabs (var0 * (1 - e) - thetaR p / 2 * (2 - e))
            <= c * (Rabs var0 + Rabs (thetaR p)))%R by now apply Rmult_le_compat_l.
    lra.
Qed.

Lemma var_mv_stationary_limit_scenario :
  (0 < mrR scenario)%R
  /\ forall eps : R, (0 < eps)%R ->
     exists T : R, (0 <= T)%R /\
       forall dt : R, (T < dt)%R ->
       exists m v : R,
         var_mv (lift scenario) (Fin (9 / 100)) (Fin dt) = Ok (Fin m, Fin v)
         /\ (Rabs (m - thetaR scenario) < eps)%R
         /\ (Rabs (v - thetaR scenario * (vovR scenario * vovR scenario)
                       / (2 * mrR scenario)) < eps)%R.
Proof.
  assert (Hk : (0 < mrR scenario)%R) by (simpl; lra).
  split; [exact Hk |].
  exact (@var_mv_stationary_limit scenario (9 / 100) Hk).
Defined.

(** ** The price composed with the moments *)

Section PriceMore.

Context {F : Type} {AF : Arith F}.
Variable Bsm_price Bsm_d2_var : F -> F -> F -> F -> F -> F -> Z -> F.
Variable repr : F -> string.

Local Abbreviation price_of := (price Bsm_price Bsm_d2_var repr).

(** X4: in every arithmetic, an exception of [avgvar_mv] leaves [price]
    with that exception whatever the order is, so an unsupported order
    is reported only when the moments could be computed; the line about
    [rho] has been printed by then. *)
Theorem price_moment_failure_first
  (m : HestonUncorrBallRoma1994) (strike spot texp : F) (cp : Z) (e : exn) :
  avgvar_mv m (sigma m) texp = Raise e ->
  forall n : Z,
    price_of (with_order n m) strike spot texp cp
    = (if isclose0 (rho m) then []
       else ["Pricing ignores rho = " ++ repr (rho m) ++ "."]%string,
       Raise e).
Proof.
  intros H n. unfold price.
  cbn [params with_order rho sigma].
  change (avgvar_mv (with_order n m) (sigma m) texp)
    with (avgvar_mv m (sigma m) texp).
  rewrite H. cbn [bind].
  now destruct (isclose0 (rho m)).
Qed.

End PriceMore.

Lemma avgvar_mv_ideal_zero (p : HestonR) (var0 texp : R) :
  (mrR p * texp)%R = 0%R ->
  avgvar_mv (lift p) (Fin var0) (Fin texp) = Raise ZeroDivisionError.
Proof.
  intros Hx. unfold avgvar_mv. fin_norm. rewrite Hx, pydiv_zero. reflexivity.
Qed.

Lemma avgvar_mv_scenario_zero_texp :
  avgvar_mv (ball_roma scenario 2) (sigma (ball_roma scenario 2)) (Fin 0)
  = Raise ZeroDivisionError.
Proof.
  apply (@avgvar_mv_ideal_zero scenario). simpl. lra.
Defined.

Lemma price_moment_failure_first_scenario :
  price stub_price stub_d2_var stub_repr
    (with_order 3 (ball_roma scenario 2)) (Fin 100) (Fin 100) (Fin 0) 1
  = (if isclose0 (rho (ball_roma scenario 2)) then []
     else ["Pricing ignores rho = "
           ++ stub_repr (rho (ball_roma scenario 2)) ++ "."]%string,
     Raise ZeroDivisionError).
Proof.
  exact (@price_moment_failure_first xreal Ideal stub_price stub_d2_var
           stub_repr (ball_roma scenario 2) (Fin 100) (Fin 100) (Fin 0) 1%Z
           ZeroDivisionError avgvar_mv_scenario_zero_texp 3%Z).
Defined.

Lemma xsqrt_fin (a : R) : (0 <= a)%R -> X.sqrt (Fin a) = Fin (R_sqrt.sqrt a).
Proof.
  intros Ha. unfold X.sqrt. destruct (Rlt_dec a 0); [lra | reflexivity].
Qed.

Lemma xadd_fin_0_r (x : xreal) (z : R) : z = 0%R -> X.add x (Fin z) = x.
Proof.
  intros ->. destruct x; cbn [X.add]; try reflexivity.
  now rewrite Rplus_0_r.
Qed.

(** X5: in exact arithmetic, for [mr > 0], [texp > 0], [theta >= 0] and
    [sigma >= 0], the volatility [price] hands to the flat-volatility
    pricer is the real square root of the mean of the average variance,
    which is not negative; the price of order 0 is the pricer's value
    there. *)
Theorem price_volatility_exact
  (Bsm_price Bsm_d2_var : xreal -> xreal -> xreal -> xreal -> xreal -> xreal -> Z -> xreal)
  (repr : xreal -> string)
  (p : HestonR) (strike spot : xreal) (texp : R) (cp : Z) :
  (0 < mrR p)%R -> (0 < texp)%R -> (0 <= thetaR p)%R -> (0 <= sigmaR p)%R ->
  exists mean : R,
    fair_strike_var (lift p) (Fin texp) None = Ok (Fin mean)
    /\ (0 <= mean)%R
    /\ snd (price Bsm_price Bsm_d2_var repr (ball_roma p 0)
              strike spot (Fin texp) cp)
       = Ok (Bsm_price (Fin (R_sqrt.sqrt mean)) (Fin (intrR p)) (Fin (divrR p))
               strike spot (Fin texp) cp).
Proof.
  intros Hk Ht Hth Hs.
  assert (Hx : (mrR p * texp)%R <> 0%R).
  { apply Rgt_not_eq. now apply Rmult_lt_0_compat. }
  assert (Hm : (0 <= avg_mean_R p (sigmaR p) texp)%R).
  { destruct (avg_mean_R_between p (sigmaR p) Hk Ht) as [Hlo _].
    apply Rle_trans with (Rmin (sigmaR p) (thetaR p)); [| exact Hlo].
    now apply Rmin_glb. }
  exists (avg_mean_R p (sigmaR p) texp).
  split; [now apply fair_strike_var_cont_ideal |].
  split; [exact Hm |].
  rewrite (@price_result xreal Ideal Bsm_price Bsm_d2_var repr (ball_roma p 0)
             strike spot (Fin texp) cp _ _ (avgvar_mv_ideal p (sigmaR p) Hx)).
  cbn [order ball_roma Z.eqb Z.gtb Z.compare Pos.eqb
       params lift intr divr np_sqrt Ideal].
  now rewrite xsqrt_fin.
Qed.

Lemma price_volatility_exact_scenario :
  exists mean : R,
    fair_strike_var (lift scenario) (Fin 1) None = Ok (Fin mean)
    /\ (0 <= mean)%R
    /\ snd (price stub_price stub_d2_var stub_repr (ball_roma scenario 0)
              (Fin 100) (Fin 100) (Fin 1) 1)
       = Ok (stub_price (Fin (R_sqrt.sqrt mean)) (Fin (intrR scenario))
               (Fin (divrR scenario)) (Fin 100) (Fin 100) (Fin 1) 1).
Proof.
  apply (@price_volatility_exact stub_price stub_d2_var stub_repr scenario
           (Fin 100) (Fin 100) 1%R 1%Z); simpl; lra.
Defined.

(** X6: in exact arithmetic, without volatility of the variance
    ([vov = 0]) both methods return the variance 0, and the price of
    order 2 is the price of order 0 whenever the pricer's [d2_var] is
    finite. *)
Theorem vov_zero_no_correction
  (Bsm_price Bsm_d2_var : xreal -> xreal -> xreal -> xreal -> xreal -> xreal -> Z -> xreal)
  (repr : xreal -> string)
  (p : HestonR) (var0 : R) (strike spot : xreal) (texp : R) (cp : Z) :
  vovR p = 0%R -> (mrR p * texp)%R <> 0%R ->
  (exists m : R, var_mv (lift p) (Fin var0) (Fin texp) = Ok (Fin m, Fin 0))
  /\ (exists m : R,
         avgvar_mv (lift p) (Fin var0) (Fin texp) = Ok (Fin m, Fin 0))
  /\ ((exists d : R,
          Bsm_d2_var (np_sqrt (Fin (avg_mean_R p (sigmaR p) texp)))
            (Fin (intrR p)) (Fin (divrR p)) strike spot (Fin texp) cp = Fin d) ->
      snd (price Bsm_price Bsm_d2_var repr (ball_roma p 2)
             strike spot (Fin texp) cp)
      = snd (price Bsm_price Bsm_d2_var repr (ball_roma p 0)
               strike spot (Fin texp) cp)).
Proof.
  intros Hv Hx.
  assert (Hk : mrR p <> 0%R) by (intros E; apply Hx; rewrite E; ring).
  assert (Hvar : var_var_R p var0 texp = 0%R)
    by (unfold var_var_R; rewrite Hv; field; exact Hk).
  assert (Havg : forall v, avg_var_R p v texp = 0%R).
  { intros v. unfold avg_var_R. rewrite Hv. field.
    split; [| exact Hk]. intros E. apply Hx. rewrite E. ring. }
  split; [| split].
  - exists (var_mean_R p var0 texp). rewrite var_mv_ideal by exact Hk.
    now rewrite Hvar.
  - exists (avg_mean_R p var0 texp). rewrite avgvar_mv_ideal by exact Hx.
    now rewrite Havg.
  - intros [d Hd].
    rewrite (@price_result xreal Ideal Bsm_price Bsm_d2_var repr (ball_roma p 2)
               strike spot (Fin texp) cp _ _ (avgvar_mv_ideal p (sigmaR p) Hx)).
    rewrite (@price_result xreal Ideal Bsm_price Bsm_d2_var repr (ball_roma p 0)
               strike spot (Fin texp) cp _ _ (avgvar_mv_ideal p (sigmaR p) Hx)).
    cbn [order ball_roma Z.eqb Z.gtb Z.compare Pos.eqb
         params lift intr divr].
    rewrite Hd, Havg. f_equal.
    unfold c0_5. cbn [of_Z add mul div Ideal].
    rewrite xdiv_fin by lra. cbn [X.mul].
    apply xadd_fin_0_r. field.
Qed.

Lemma vov_zero_no_correction_no_vov :
  (exists m : R, var_mv (lift no_vov) (Fin (9 / 100)) (Fin 1) = Ok (Fin m, Fin 0))
  /\ (exists m : R,
         avgvar_mv (lift no_vov) (Fin (9 / 100)) (Fin 1) = Ok (Fin m, Fin 0))
  /\ ((exists d : R,
          stub_d2_var (np_sqrt (Fin (avg_mean_R no_vov (sigmaR no_vov) 1)))
            (Fin (intrR no_vov)) (Fin (divrR no_vov)) (Fin 100) (Fin 100)
            (Fin 1) 1 = Fin d) ->
      snd (price stub_price stub_d2_var stub_repr (ball_roma no_vov 2)
             (Fin 100) (Fin 100) (Fin 1) 1)
      = snd (price stub_price stub_d2_var stub_repr (ball_roma no_vov 0)
               (Fin 100) (Fin 100) (Fin 1) 1)).
Proof.
  apply (@vov_zero_no_correction stub_price stub_d2_var stub_repr no_vov
           (9 / 100) (Fin 100) (Fin 100) 1%R 1%Z); simpl; [reflexivity | lra].
Defined.

(** ** Failing and degenerate calls of [fair_strike_var] *)

Lemma xdiv_zero_zero (a b : R) :
  a = 0%R -> b = 0%R -> X.div (Fin a) (Fin b) = NaN.
Proof.
  intros -> ->. unfold X.div.
  destruct (Req_dec_T 0 0) as [_ | N]; [| now elim N].
  unfold X.signed_inf. destruct (Rlt_dec 0 0); [lra | reflexivity].
Qed.

(** X7: in exact arithmetic, on finite arguments, [fair_strike_var] with
    a monitoring frequency [aa] raises [ZeroDivisionError] when [aa] or
    [mr] is zero and raises nothing otherwise: it returns the value of
    lines 62-81 when [texp] is not zero, and [nan] when [texp] is
    zero. *)
Theorem fair_strike_var_discrete_cases (p : HestonR) (texp aa : R) :
  (aa = 0%R \/ mrR p = 0%R ->
   fair_strike_var (lift p) (Fin texp) (Some (Fin aa))
   = Raise ZeroDivisionError)
  /\ (aa <> 0%R -> mrR p <> 0%R -> texp <> 0%R ->
      fair_strike_var (lift p) (Fin texp) (Some (Fin aa))
      = Ok (Fin (fair_disc_R p texp aa)))
  /\ (aa <> 0%R -> mrR p <> 0%R -> texp = 0%R ->
      fair_strike_var (lift p) (Fin texp) (Some (Fin aa)) = Ok NaN).
Proof.
  split; [| split].
  - intros H. destruct (Req_dec_T aa 0) as [-> | Ha].
    + unfold fair_strike_var. now rewrite pydiv_zero.
    + destruct H as [H | Hk]; [contradiction |].
      assert (H4 : (4 * aa)%R <> 0%R)
        by (apply Rmult_integral_contrapositive_currified; [lra | exact Ha]).
      unfold fair_strike_var. cbn [mr lift theta intr vov].
      rewrite Hk. rewrite (pydiv_fin _ Ha). cbn [bind].
      unfold c4, c2. cbn [of_Z mul sub Ideal X.sub X.mul X.opp X.add].
      rewrite (pydiv_fin _ H4). cbn [bind].
      now rewrite pydiv_zero.
  - intros Ha Hk Ht. now apply fair_strike_var_disc_ideal.
  - intros Ha Hk ->.
    assert (H4 : (4 * aa)%R <> 0%R)
      by (apply Rmult_integral_contrapositive_currified; [lra | exact Ha]).
    unfold fair_strike_var. fin_norm.
    rewrite (@xdiv_zero_zero ((sigmaR p + - thetaR p) * (1 + - exp (- (mrR p * 0))))
               (mrR p * 0)%R)
      by (rewrite ?Rmult_0_r, ?Ropp_0, ?exp_0; ring).
    reflexivity.
Qed.

Lemma fair_strike_var_discrete_cases_scenario :
  (252%R = 0%R \/ mrR scenario = 0%R ->
   fair_strike_var (lift scenario) (Fin 1) (Some (Fin 252))
   = Raise ZeroDivisionError)
  /\ (252%R <> 0%R -> mrR scenario <> 0%R -> 1%R <> 0%R ->
      fair_strike_var (lift scenario) (Fin 1) (Some (Fin 252))
      = Ok (Fin (fair_disc_R scenario 1 252)))
  /\ (252%R <> 0%R -> mrR scenario <> 0%R -> 1%R = 0%R ->
      fair_strike_var (lift scenario) (Fin 1) (Some (Fin 252)) = Ok NaN).
Proof.
  exact (@fair_strike_var_discrete_cases scenario 1 252).
Defined.

(** ** The discrete strike as a function of the correlation *)

Section RhoSlope.

Local Open Scope R_scope.

Lemma fair_disc_R_affine_in_rho (p : HestonR) (r texp aa : R) :
  mrR p <> 0 -> texp <> 0 -> aa <> 0 ->
  fair_disc_R (with_rhoR r p) texp aa
  = fair_disc_R (with_rhoR 0 p) texp aa - r * rho_slope_R p texp aa.
Proof.
  intros Hk Ht Ha.
  assert (Hka : mrR p / aa <> 0).
  { unfold Rdiv. apply Rmult_integral_contrapositive_currified; [assumption |].
    now apply Rinv_neq_0_compat. }
  assert (Hp : 1 + exp (- (mrR p / aa)) <> 0).
  { apply Rgt_not_eq. pose proof (exp_pos (- (mrR p / aa))). lra. }
  assert (He : 1 - exp (- (mrR p / aa)) <> 0) by now apply exp_neg_neq_1.
  unfold fair_disc_R, rho_slope_R.
  cbn [sigmaR vovR rhoR mrR thetaR intrR with_rhoR].
  set (E := exp (- (mrR p / aa))) in *.
  set (e := exp (- (mrR p * texp))).
  field. repeat split; assumption.
Qed.

Lemma rho_slope_R_pos (p : HestonR) (texp aa : R) :
  0 < mrR p -> 0 < vovR p -> 0 < thetaR p -> thetaR p <= sigmaR p ->
  0 < texp -> 0 < aa ->
  0 < rho_slope_R p texp aa.
Proof.
  intros Hk Hv Hth Hs Ht Ha. unfold rho_slope_R.
  assert (Hh : 0 < mrR p / aa) by now apply Rdiv_lt_0_compat.
  assert (Hm : 0 < mrR p * texp) by now apply Rmult_lt_0_compat.
  set (h := mrR p / aa) in *.
  assert (He : exp (- h) < 1) by now apply exp_neg_lt_1.
  assert (Hlt : 1 - exp (- h) < h).
  { assert (H := exp_ineq1 (- h)). assert (- h <> 0) by lra. specialize (H H0). lra. }
  assert (Hr : (1 - exp (- h)) / h < 1).
  { apply (Rmult_lt_reg_r h); [exact Hh |].
    replace ((1 - exp (- h)) / h * h) with (1 - exp (- h)) by (field; lra). lra. }
  assert (Hq : 0 < h / (1 - exp (- h))) by (apply Rdiv_lt_0_compat; lra).
  pose proof (ratio_pos Hm) as HR.
  apply Rmult_lt_0_compat; [now apply Rdiv_lt_0_compat |].
  assert (H1 : 0 < thetaR p * (1 - (1 - exp (- h)) / h))
    by (apply Rmult_lt_0_compat; lra).
  assert (H2 : 0 <= (sigmaR p - thetaR p) * (1 - exp (- (mrR p * texp)))
                    / (mrR p * texp) * (1 + h / (1 - exp (- h)))).
  { replace ((sigmaR p - thetaR p) * (1 - exp (- (mrR p * texp))) / (mrR p * texp))
      with ((sigmaR p - thetaR p) * ((1 - exp (- (mrR p * texp))) / (mrR p * texp)))
      by (field; lra).
    apply Rmult_le_pos; [| lra].
    apply Rmult_le_pos; lra. }
  lra.
Qed.

End RhoSlope.

(** X8: in exact arithmetic, for [mr > 0], [vov > 0], [theta > 0],
    [sigma >= theta], [texp > 0] and [aa > 0], the discretely monitored
    strike is an affine, strictly decreasing function of [rho]: raising
    [rho] from [r1] to [r2] lowers the strike by [r2 - r1] times the
    positive coefficient of lines 79-80. *)
Theorem fair_strike_var_decreasing_in_rho (p : HestonR) (r1 r2 texp aa : R) :
  (0 < mrR p)%R -> (0 < vovR p)%R -> (0 < thetaR p)%R ->
  (thetaR p <= sigmaR p)%R -> (0 < texp)%R -> (0 < aa)%R -> (r1 < r2)%R ->
  exists s1 s2 : R,
    fair_strike_var (with_rho (Fin r1) (lift p)) (Fin texp) (Some (Fin aa))
    = Ok (Fin s1)
    /\ fair_strike_var (with_rho (Fin r2) (lift p)) (Fin texp) (Some (Fin aa))
       = Ok (Fin s2)
    /\ (s1 - s2 = (r2 - r1) * rho_slope_R p texp aa)%R
    /\ (s2 < s1)%R.
Proof.
  intros Hk Hv Hth Hs Ht Ha Hr.
  exists (fair_disc_R (with_rhoR r1 p) texp aa), (fair_disc_R (with_rhoR r2 p) texp aa).
  change (with_rho (Fin r1) (lift p)) with (lift (with_rhoR r1 p)).
  change (with_rho (Fin r2) (lift p)) with (lift (with_rhoR r2 p)).
  rewrite !fair_strike_var_disc_ideal by (cbn [mrR with_rhoR]; lra).
  rewrite (@fair_disc_R_affine_in_rho p r1 texp aa),
          (@fair_disc_R_affine_in_rho p r2 texp aa) by lra.
  pose proof (rho_slope_R_pos p Hk Hv Hth Hs Ht Ha) as Hpos.
  repeat split; try reflexivity; [ring | nra].
Qed.

Lemma fair_strike_var_decreasing_in_rho_scenario :
  exists s1 s2 : R,
    fair_strike_var (with_rho (Fin (-1 / 2)) (lift scenario)) (Fin 1)
      (Some (Fin 252)) = Ok (Fin s1)
    /\ fair_strike_var (with_rho (Fin (1 / 2)) (lift scenario)) (Fin 1)
         (Some (Fin 252)) = Ok (Fin s2)
    /\ (s1 - s2 = (1 / 2 - -1 / 2) * rho_slope_R scenario 1 252)%R
    /\ (s2 < s1)%R.
Proof.
  apply (@fair_strike_var_decreasing_in_rho scenario (-1 / 2) (1 / 2) 1 252);
    simpl; lra.
Defined.

(** ** The discrete strike at high monitoring frequency *)

Section DiscreteLimit.

Local Open Scope R_scope.

Lemma fair_disc_R_gap (p : HestonR) (texp aa : R) :
  mrR p <> 0 -> texp <> 0 -> aa <> 0 ->
  let h := mrR p / aa in
  fair_disc_R p texp aa - fair_disc_limit_R p texp
  = disc_c1 p texp * h
    + disc_c2 p * (1 - (1 - exp (- h)) / h)
    + disc_c3 p texp * (h / (1 - exp (- h)) - 1)
    - disc_c4 p texp * ((1 - exp (- h)) / (1 + exp (- h))).
Proof.
  intros Hk Ht Ha h.
  assert (Hh : h <> 0).
  { unfold h, Rdiv. apply Rmult_integral_contrapositive_currified; [assumption |].
    now apply Rinv_neq_0_compat. }
  assert (Hp : 1 + exp (- h) <> 0).
  { apply Rgt_not_eq. pose proof (exp_pos (- h)). lra. }
  assert (He : 1 - exp (- h) <> 0) by now apply exp_neg_neq_1.
  unfold fair_disc_R, fair_disc_limit_R, avg_mean_R,
    disc_c1, disc_c2, disc_c3, disc_c4.
  fold h.
  set (E := exp (- h)) in *.
  set (e := exp (- (mrR p * texp))).
  assert (Eh : aa = mrR p / h) by (unfold h; field; split; assumption).
  rewrite Eh. field. repeat split; assumption.
Qed.

(** The three functions of [h = mr/aa] in the adjustment, for
    [0 < h <= 1]. *)
Lemma monitoring_factors (h : R) :
  0 < h <= 1 ->
  0 <= 1 - (1 - exp (- h)) / h <= h / 2
  /\ 0 <= h / (1 - exp (- h)) - 1 <= h
  /\ 0 <= (1 - exp (- h)) / (1 + exp (- h)) <= h.
Proof.
  intros [Hh Hh1].
  destruct (ratio_bounds Hh) as [Hlo Hhi].
  pose proof (ratio_pos Hh) as Hrp.
  pose proof (exp_pos (- h)) as He0.
  pose proof (exp_neg_lt_1 Hh) as He1.
  pose proof (exp_ge_1_plus (- h)) as Hge.
  set (r := (1 - exp (- h)) / h) in *.
  split; [lra | split].
  - assert (Hinv : h / (1 - exp (- h)) = / r).
    { unfold r. field. split; lra. }
    rewrite Hinv.
    assert (Hr2 : / 2 <= r) by lra.
    assert (H1 : 1 <= / r).
    { rewrite <- Rinv_1. apply Rinv_le_contravar; lra. }
    assert (H2 : / r <= 1 + h).
    { apply (Rmult_le_reg_r r); [lra |].
      replace (/ r * r) with 1 by (field; lra). nra. }
    lra.
  - split.
    + apply Rmult_le_pos; [lra | left; apply Rinv_0_lt_compat; lra].
    + apply (Rmult_le_reg_r (1 + exp (- h))); [lra |].
      replace ((1 - exp (- h)) / (1 + exp (- h)) * (1 + exp (- h)))
        with (1 - exp (- h)) by (field; lra).
      nra.
Qed.

Lemma fair_disc_R_rate (p : HestonR) (texp aa : R) :
  0 < mrR p -> texp <> 0 -> mrR p <= aa ->
  Rabs (fair_disc_R p texp aa - fair_disc_limit_R p texp)
  <= disc_rate p texp * (mrR p / aa).
Proof.
  intros Hk Ht Ha.
  assert (Ha0 : 0 < aa) by lra.
  rewrite fair_disc_R_gap by lra. cbv zeta.
  set (h := mrR p / aa).
  assert (Hh : 0 < h <= 1).
  { unfold h. split; [now apply Rdiv_lt_0_compat |].
    apply (Rmult_le_reg_r aa); [exact Ha0 |].
    replace (mrR p / aa * aa) with (mrR p) by (field; lra). lra. }
  destruct (monitoring_factors Hh) as [[A0 A1] [[B0 B1] [D0 D1]]].
  unfold disc_rate.
  set (a := 1 - (1 - exp (- h)) / h) in *.
  set (b := h / (1 - exp (- h)) - 1) in *.
  set (d := (1 - exp (- h)) / (1 + exp (- h))) in *.
  set (c1 := disc_c1 p texp). set (c2 := disc_c2 p).
  set (c3 := disc_c3 p texp). set (c4 := disc_c4 p texp).
  assert (T1 : Rabs (c1 * h) <= Rabs c1 * h)
    by (rewrite Rabs_mult, (Rabs_pos_eq h) by lra; lra).
  assert (T2 : Rabs (c2 * a) <= Rabs c2 / 2 * h).
  { rewrite Rabs_mult, (Rabs_pos_eq a) by lra.
    pose proof (Rabs_pos c2). nra. }
  assert (T3 : Rabs (c3 * b) <= Rabs c3 * h).
  { rewrite Rabs_mult, (Rabs_pos_eq b) by lra.
    pose proof (Rabs_pos c3). nra. }
  assert (T4 : Rabs (c4 * d) <= Rabs c4 * h).
  { rewrite Rabs_mult, (Rabs_pos_eq d) by lra.
    pose proof (Rabs_pos c4). nra. }
  unfold Rminus at 1.
  eapply Rle_trans; [apply Rabs_triang |]. rewrite Rabs_Ropp.
  eapply Rle_trans; [apply Rplus_le_compat_r, Rabs_triang |].
  eapply Rle_trans; [apply Rplus_le_compat_r, Rplus_le_compat_r, Rabs_triang |].
  lra.
Qed.

Lemma fair_disc_R_tends (p : HestonR) (texp : R) :
  0 < mrR p -> texp <> 0 ->
  forall eps : R, 0 < eps ->
  exists A : R, 0 < A /\
    forall aa : R, A < aa ->
    0 < aa
    /\ Rabs (fair_disc_R p texp aa - fair_disc_limit_R p texp) < eps.
Proof.
  intros Hk Ht eps Heps.
  set (K := disc_rate p texp).
  assert (HK : 0 <= K).
  { unfold K, disc_rate.
    pose proof (Rabs_pos (disc_c1 p texp)). pose proof (Rabs_pos (disc_c2 p)).
    pose proof (Rabs_pos (disc_c3 p texp)). pose proof (Rabs_pos (disc_c4 p texp)).
    lra. }
  assert (HKe : 0 <= K * mrR p / eps).
  { unfold Rdiv. apply Rmult_le_pos; [apply Rmult_le_pos; lra |].
    left. now apply Rinv_0_lt_compat. }
  exists (mrR p + K * mrR p / eps). split; [lra |].
  intros aa Haa.
  assert (Ha0 : 0 < aa) by lra.
  split; [exact Ha0 |].
  apply Rle_lt_trans with (K * (mrR p / aa)).
  { apply fair_disc_R_rate; lra. }
  apply (Rmult_lt_reg_r aa); [exact Ha0 |].
  replace (K * (mrR p / aa) * aa) with (K * mrR p) by (field; lra).
  assert (Hlt : K * mrR p / eps < aa) by lra.
  apply (Rmult_lt_compat_r eps) in Hlt; [| exact Heps].
  replace (K * mrR p / eps * eps) with (K * mrR p) in Hlt by (field; lra).
  lra.
Qed.

Lemma Rabs_apart (s c l : R) : Rabs (l - c) <= Rabs (s - c) + Rabs (s - l).
Proof.
  replace (l - c) with ((s - c) + - (s - l)) by ring.
  eapply Rle_trans; [apply Rabs_triang |]. rewrite Rabs_Ropp. lra.
Qed.

Lemma disc_c3_neq_0 (p : HestonR) (texp : R) :
  0 < mrR p -> 0 < texp ->
  sigmaR p <> thetaR p -> vovR p <> 0 -> rhoR p <> vovR p / (2 * mrR p) ->
  disc_c3 p texp <> 0.
Proof.
  intros Hk Ht Hs Hv Hr.
  assert (Hm : 0 < mrR p * texp) by now apply Rmult_lt_0_compat.
  pose proof (ratio_pos Hm) as HR.
  unfold disc_c3.
  replace ((sigmaR p - thetaR p) * (vovR p / mrR p)
           * (vovR p / mrR p / 2 - rhoR p)
           * (1 - exp (- (mrR p * texp))) / (mrR p * texp))
    with ((sigmaR p - thetaR p) * (vovR p / mrR p)
          * (vovR p / mrR p / 2 - rhoR p)
          * ((1 - exp (- (mrR p * texp))) / (mrR p * texp)))
    by (field; lra).
  apply Rmult_integral_contrapositive_currified; [| lra].
  apply Rmult_integral_contrapositive_currified.
  - apply Rmult_integral_contrapositive_currified; [lra |].
    unfold Rdiv. apply Rmult_integral_contrapositive_currified; [exact Hv |].
    apply Rinv_neq_0_compat. lra.
  - intros E. apply Hr.
    replace (vovR p / (2 * mrR p)) with (vovR p / mrR p / 2) by (field; lra).
    lra.
Qed.

End DiscreteLimit.

(** X9: in exact arithmetic, for [mr > 0] and [texp > 0], as the
    monitoring frequency [aa] grows the discretely monitored strike
    tends to the continuous strike plus
    [2*(sigma - theta)*(vov/mr)*(vov/(2*mr) - rho)*(1 - exp(-mr*texp))/(mr*texp)]:
    the factor [1 + mr_a/(1 - e_mr_a)] of line 80 tends to 2, not to 0,
    so the limit is the continuous strike only when that product
    vanishes. *)
Theorem fair_strike_var_high_frequency_limit (p : HestonR) (texp : R) :
  (0 < mrR p)%R -> (0 < texp)%R ->
  exists cont : R,
    fair_strike_var (lift p) (Fin texp) None = Ok (Fin cont)
    /\ forall eps : R, (0 < eps)%R ->
       exists A : R, (0 < A)%R /\
         forall aa : R, (A < aa)%R ->
         exists s : R,
           fair_strike_var (lift p) (Fin texp) (Some (Fin aa)) = Ok (Fin s)
           /\ (Rabs (s - (cont
                          + 2 * ((sigmaR p - thetaR p) * (vovR p / mrR p)
                                 * (vovR p / mrR p / 2 - rhoR p)
                                 * (1 - exp (- (mrR p * texp)))
                                 / (mrR p * texp)))) < eps)%R.
Proof.
  intros Hk Ht.
  exists (avg_mean_R p (sigmaR p) texp).
  split.
  { apply fair_strike_var_cont_ideal. apply Rgt_not_eq. now apply Rmult_lt_0_compat. }
  intros eps Heps.
  assert (Ht0 : texp <> 0%R) by lra.
  destruct (fair_disc_R_tends p Hk Ht0 Heps) as [A [HA H]].
  exists A. split; [exact HA |].
  intros aa Haa. destruct (H aa Haa) as [Ha0 Hlt].
  exists (fair_disc_R p texp aa).
  split; [apply fair_strike_var_disc_ideal; lra | exact Hlt].
Qed.

Lemma fair_strike_var_high_frequency_limit_off_level :
  exists cont : R,
    fair_strike_var (lift off_level) (Fin 1) None = Ok (Fin cont)
    /\ forall eps : R, (0 < eps)%R ->
       exists A : R, (0 < A)%R /\
         forall aa : R, (A < aa)%R ->
         exists s : R,
           fair_strike_var (lift off_level) (Fin 1) (Some (Fin aa)) = Ok (Fin s)
           /\ (Rabs (s - (cont
                          + 2 * ((sigmaR off_level - thetaR off_level)
                                 * (vovR off_level / mrR off_level)
                                 * (vovR off_level / mrR off_level / 2 - rhoR off_level)
                                 * (1 - exp (- (mrR off_level * 1)))
                                 / (mrR off_level * 1)))) < eps)%R.
Proof.
  apply (@fair_strike_var_high_frequency_limit off_level 1); simpl; lra.
Defined.

(** X10: in exact arithmetic, for [mr > 0], [texp > 0],
    [sigma <> theta], [vov <> 0] and [rho <> vov/(2*mr)], the discretely
    monitored strike does not approach the continuous strike: from some
    frequency on it stays at a fixed positive distance from it. *)
Theorem fair_strike_var_discrete_stays_apart (p : HestonR) (texp : R) :
  (0 < mrR p)%R -> (0 < texp)%R ->
  sigmaR p <> thetaR p -> vovR p <> 0%R ->
  rhoR p <> (vovR p / (2 * mrR p))%R ->
  exists cont gap A : R,
    fair_strike_var (lift p) (Fin texp) None = Ok (Fin cont)
    /\ (0 < gap)%R /\ (0 < A)%R
    /\ forall aa : R, (A < aa)%R ->
       exists s : R,
         fair_strike_var (lift p) (Fin texp) (Some (Fin aa)) = Ok (Fin s)
         /\ (gap <= Rabs (s - cont))%R.
Proof.
  intros Hk Ht Hs Hv Hr.
  pose proof (disc_c3_neq_0 Hk Ht Hs Hv Hr) as Hc.
  assert (Hgap : (0 < Rabs (disc_c3 p texp))%R) by now apply Rabs_pos_lt.
  assert (Ht0 : texp <> 0%R) by lra.
  destruct (fair_disc_R_tends p Hk Ht0 Hgap) as [A [HA H]].
  exists (avg_mean_R p (sigmaR p) texp), (Rabs (disc_c3 p texp)), A.
  split.
  { apply fair_strike_var_cont_ideal. apply Rgt_not_eq. now apply Rmult_lt_0_compat. }
  split; [exact Hgap |]. split; [exact HA |].
  intros aa Haa. destruct (H aa Haa) as [Ha0 Hlt].
  exists (fair_disc_R p texp aa).
  split; [apply fair_strike_var_disc_ideal; lra |].
  assert (EL : fair_disc_limit_R p texp
               = (avg_mean_R p (sigmaR p) texp + 2 * disc_c3 p texp)%R)
    by reflexivity.
  rewrite EL in Hlt.
  set (s := fair_disc_R p texp aa) in *.
  set (c := avg_mean_R p (sigmaR p) texp) in *.
  set (g := disc_c3 p texp) in *.
  pose proof (Rabs_apart s c (c + 2 * g)) as Htri.
  replace (c + 2 * g - c)%R with (2 * g)%R in Htri by ring.
  rewrite Rabs_mult, (Rabs_pos_eq 2) in Htri by lra.
  lra.
Qed.

Lemma fair_strike_var_discrete_stays_apart_off_level :
  exists cont gap A : R,
    fair_strike_var (lift off_level) (Fin 1) None = Ok (Fin cont)
    /\ (0 < gap)%R /\ (0 < A)%R
    /\ forall aa : R, (A < aa)%R ->
       exists s : R,
         fair_strike_var (lift off_level) (Fin 1) (Some (Fin aa)) = Ok (Fin s)
         /\ (gap <= Rabs (s - cont))%R.
Proof.
  apply (@fair_strike_var_discrete_stays_apart off_level 1); simpl; lra.
Defined.

(** ** The average variance as a time average *)

Section TimeAverage.

Local Open Scope R_scope.

Variable p : HestonR.
Variable var0 : R.
Hypothesis Hk : mrR p <> 0.

(** [texp] times the mean of the average variance, in closed form. *)
Lemma avg_mean_R_times_texp (u : R) :
  u * avg_mean_R p var0 u
  = thetaR p * u + (var0 - thetaR p) * ((1 - exp (- mrR p * u)) / mrR p).
Proof.
  unfold avg_mean_R.
  replace (- mrR p * u) with (- (mrR p * u)) by ring.
  destruct (Req_dec u 0) as [-> | Hu].
  - rewrite !Rmult_0_r, Ropp_0, exp_0. unfold Rdiv. ring.
  - field. split; assumption.
Qed.

Lemma dlim_exp_scaled (t : R) :
  derivable_pt_lim (fun u => exp (- mrR p * u)) t (- mrR p * exp (- mrR p * t)).
Proof.
  replace (- mrR p * exp (- mrR p * t)) with (exp (- mrR p * t) * (- mrR p * 1))
    by ring.
  exact (derivable_pt_lim_comp (fun u => - mrR p * u) exp t _ _
           (derivable_pt_lim_scal id (- mrR p) t 1 (derivable_pt_lim_id t))
           (derivable_pt_lim_exp (- mrR p * t))).
Qed.

Lemma dlim_avg_mean_times_texp (t : R) :
  derivable_pt_lim (fun u => u * avg_mean_R p var0 u) t (var_mean_R p var0 t).
Proof.
  assert (D : derivable_pt_lim
                (fun u => thetaR p * u
                          + (var0 - thetaR p) * ((1 - exp (- mrR p * u)) / mrR p))
                t (var_mean_R p var0 t)).
  { unfold var_mean_R.
    replace (thetaR p + (var0 - thetaR p) * exp (- mrR p * t))
      with (thetaR p * 1
            + (var0 - thetaR p)
              * (/ mrR p * (0 - - mrR p * exp (- mrR p * t))))
      by (field; exact Hk).
    apply (derivable_pt_lim_plus (fun u => thetaR p * u)
             (fun u => (var0 - thetaR p) * ((1 - exp (- mrR p * u)) / mrR p))).
    - apply (derivable_pt_lim_scal id (thetaR p) t 1), derivable_pt_lim_id.
    - apply (derivable_pt_lim_scal
               (fun u => (1 - exp (- mrR p * u)) / mrR p) (var0 - thetaR p)).
      assert (D1 : derivable_pt_lim (fun u => 1 - exp (- mrR p * u)) t
                     (0 - - mrR p * exp (- mrR p * t))).
      { apply (derivable_pt_lim_minus (fun _ => 1) (fun u => exp (- mrR p * u)));
          [apply derivable_pt_lim_const | apply dlim_exp_scaled]. }
      assert (D2 := derivable_pt_lim_scal _ (/ mrR p) t _ D1).
      intros eps Heps. destruct (D2 eps Heps) as [delta Hd]. exists delta.
      intros h Hh Hhd. specialize (Hd h Hh Hhd). unfold mult_real_fct in Hd.
      replace (((1 - exp (- mrR p * (t + h))) / mrR p
                - (1 - exp (- mrR p * t)) / mrR p) / h)
        with ((/ mrR p * (1 - exp (- mrR p * (t + h)))
               - / mrR p * (1 - exp (- mrR p * t))) / h)
        by (field; split; assumption).
      exact Hd. }
  intros eps Heps. destruct (D eps Heps) as [delta Hd]. exists delta.
  intros h Hh Hhd. rewrite !avg_mean_R_times_texp. now apply Hd.
Qed.

End TimeAverage.

(** X11: in exact arithmetic, for [mr <> 0], the mean of [avgvar_mv] is
    the time average of the mean of [var_mv]: as a function of [texp],
    [texp] times the former (which is 0 at 0) has the latter as its
    derivative everywhere. *)
Theorem avgvar_mean_is_time_average (p : HestonR) (var0 t : R) :
  mrR p <> 0%R ->
  exists avg_mean var_mean : R -> R,
    (forall u : R, u <> 0%R ->
       exists v : R,
         avgvar_mv (lift p) (Fin var0) (Fin u) = Ok (Fin (avg_mean u), Fin v))
    /\ (forall u : R,
          exists v : R,
            var_mv (lift p) (Fin var0) (Fin u) = Ok (Fin (var_mean u), Fin v))
    /\ derivable_pt_lim (fun u => (u * avg_mean u)%R) t (var_mean t).
Proof.
  intros Hk.
  exists (avg_mean_R p var0), (var_mean_R p var0).
  split; [| split].
  - intros u Hu. exists (avg_var_R p var0 u). apply avgvar_mv_ideal.
    now apply Rmult_integral_contrapositive_currified.
  - intros u. exists (var_var_R p var0 u). now apply var_mv_ideal.
  - now apply dlim_avg_mean_times_texp.
Qed.

Lemma avgvar_mean_is_time_average_scenario :
  exists avg_mean var_mean : R -> R,
    (forall u : R, u <> 0%R ->
       exists v : R,
         avgvar_mv (lift scenario) (Fin (9 / 100)) (Fin u)
         = Ok (Fin (avg_mean u), Fin v))
    /\ (forall u : R,
          exists v : R,
            var_mv (lift scenario) (Fin (9 / 100)) (Fin u)
            = Ok (Fin (var_mean u), Fin v))
    /\ derivable_pt_lim (fun u => (u * avg_mean u)%R) 1 (var_mean 1%R).
Proof.
  apply (@avgvar_mean_is_time_average scenario (9 / 100) 1); simpl; lra.
Defined.

(** ** Calls that do not fail *)

(** X12: in exact arithmetic, on finite arguments, [var_mv] raises
    nothing: it returns the values of its formulas when [mr] is not
    zero, and the mean [var0] with the variance [nan] (from the numpy
    division [0/0]) when [mr] is zero, where [avgvar_mv] raises. *)
Theorem var_mv_never_raises_exact (p : HestonR) (var0 dt : R) :
  (mrR p <> 0%R ->
   var_mv (lift p) (Fin var0) (Fin dt)
   = Ok (Fin (var_mean_R p var0 dt), Fin (var_var_R p var0 dt)))
  /\ (mrR p = 0%R ->
      var_mv (lift p) (Fin var0) (Fin dt) = Ok (Fin var0, NaN)
      /\ avgvar_mv (lift p) (Fin var0) (Fin dt) = Raise ZeroDivisionError).
Proof.
  split; [now apply var_mv_ideal |].
  intros Hk. split.
  - unfold var_mv. fin_norm. rewrite Hk.
    replace (- 0 * dt)%R with 0%R by ring. rewrite exp_0.
    rewrite (@xdiv_zero_zero (vovR p * vovR p * (1 + - (1))) 0) by (ring || reflexivity).
    cbn [X.mul]. do 3 f_equal. ring.
  - apply avgvar_mv_ideal_zero. rewrite Hk. ring.
Qed.

Lemma var_mv_never_raises_exact_scenario :
  (mrR scenario <> 0%R ->
   var_mv (lift scenario) (Fin (9 / 100)) (Fin 1)
   = Ok (Fin (var_mean_R scenario (9 / 100) 1),
         Fin (var_var_R scenario (9 / 100) 1)))
  /\ (mrR scenario = 0%R ->
      var_mv (lift scenario) (Fin (9 / 100)) (Fin 1) = Ok (Fin (9 / 100), NaN)
      /\ avgvar_mv (lift scenario) (Fin (9 / 100)) (Fin 1)
         = Raise ZeroDivisionError).
Proof.
  exact (@var_mv_never_raises_exact scenario (9 / 100) 1).
Defined.

(** ** The exceptions that can escape *)

Section Exceptions.

Context {F : Type} {AF : Arith F}.
Variable Bsm_price Bsm_d2_var : F -> F -> F -> F -> F -> F -> Z -> F.
Variable repr : F -> string.

Ltac split_tests :=
  repeat match goal with
         | |- context [if ?b then _ else _] => destruct b
         end.

(** X13: in every arithmetic, [var_mv] can raise only [OverflowError];
    [avgvar_mv] and [fair_strike_var] only [ZeroDivisionError] or
    [OverflowError], the latter never without a monitoring frequency;
    and [price] raises [ValueError] only for an order above 2. *)
Theorem exceptions_that_escape
  (m : HestonUncorrBallRoma1994) (var0 t strike spot : F) (aa : option F)
  (cp : Z) :
  (forall e : exn, var_mv m var0 t = Raise e -> e = OverflowError)
  /\ (forall e : exn,
         avgvar_mv m var0 t = Raise e ->
         e = ZeroDivisionError \/ e = OverflowError)
  /\ (forall e : exn,
         fair_strike_var m t aa = Raise e ->
         (e = ZeroDivisionError \/ e = OverflowError) /\ aa <> None)
  /\ (forall msg : string,
         snd (price Bsm_price Bsm_d2_var repr m strike spot t cp)
         = Raise (ValueError msg) ->
         (2 < order m)%Z).
Proof.
  split; [| split; [| split]].
  - intros e. unfold var_mv, pypow2, bind. split_tests; intros H; now inversion H.
  - intros e. unfold avgvar_mv, pydiv, pypow2, bind.
    split_tests; intros H; inversion H; auto.
  - intros e. unfold fair_strike_var. destruct aa as [a |]; [| discriminate].
    unfold pydiv, pypow2, bind.
    split_tests; intros H; inversion H; (split; [auto | discriminate]).
  - intros msg. unfold price. cbn [snd].
    unfold avgvar_mv, pydiv, pypow2, bind.
    destruct (Z.eqb_spec (order m) 2) as [E2 | N2];
      destruct (Z.gtb_spec (order m) 2) as [G2 | L2];
      split_tests; intros H; inversion H; lia.
Qed.

End Exceptions.

(** ** The parameters each method reads *)

(** X14: in every arithmetic, [var_mv] and [avgvar_mv] read only [mr],
    [theta] and [vov]; the continuous fair strike reads only those and
    [sigma]; and the discretely monitored strike does not read
    [divr]. *)
Theorem parameters_read {F : Type} {AF : Arith F}
  (p q : HestonABC) (var0 t : F) (aa : option F) :
  mr p = mr q -> theta p = theta q -> vov p = vov q ->
  var_mv p var0 t = var_mv q var0 t
  /\ avgvar_mv p var0 t = avgvar_mv q var0 t
  /\ (sigma p = sigma q ->
      fair_strike_var p t None = fair_strike_var q t None)
  /\ (sigma p = sigma q -> rho p = rho q -> intr p = intr q ->
      fair_strike_var p t aa = fair_strike_var q t aa).
Proof.
  destruct p as [s1 v1 r1 k1 th1 i1 d1], q as [s2 v2 r2 k2 th2 i2 d2].
  cbn [mr theta vov sigma rho intr].
  intros <- <- <-.
  split; [reflexivity | split; [reflexivity | split]].
  - intros <-. reflexivity.
  - intros <- <- <-. reflexivity.
Qed.

Lemma parameters_read_scenario :
  var_mv (lift scenario) (Fin (9 / 100)) (Fin 1)
  = var_mv (lift off_level) (Fin (9 / 100)) (Fin 1)
  /\ avgvar_mv (lift scenario) (Fin (9 / 100)) (Fin 1)
     = avgvar_mv (lift off_level) (Fin (9 / 100)) (Fin 1)
  /\ (sigma (lift scenario) = sigma (lift off_level) ->
      fair_strike_var (lift scenario) (Fin 1) None
      = fair_strike_var (lift off_level) (Fin 1) None)
  /\ (sigma (lift scenario) = sigma (lift off_level) ->
      rho (lift scenario) = rho (lift off_level) ->
      intr (lift scenario) = intr (lift off_level) ->
      fair_strike_var (lift scenario) (Fin 1) (Some (Fin 252))
      = fair_strike_var (lift off_level) (Fin 1) (Some (Fin 252))).
Proof.
  apply (@parameters_read xreal Ideal (lift scenario) (lift off_level));
    reflexivity.
Defined.

(** ** Cancellation in double precision *)

Lemma SFcompare_refl (x : SpecFloat.spec_float) :
  x <> SpecFloat.S754_nan -> SpecFloat.SFcompare x x = Some Eq.
Proof.
  destruct x as [s | s | | s m e]; intros H; try reflexivity.
  - now destruct s.
  - contradiction.
  - cbn. rewrite Z.compare_refl, Pos.compare_refl. now destruct s.
Qed.

Lemma not_nan_SF (x : float) :
  PrimFloat.is_nan x = false -> Prim2SF x <> SpecFloat.S754_nan.
Proof.
  unfold PrimFloat.is_nan. rewrite FloatAxioms.eqb_spec. intros H E.
  rewrite E in H. discriminate.
Qed.

Lemma finite_SF (x : float) :
  PrimFloat.is_finite x = true ->
  (exists s, Prim2SF x = SpecFloat.S754_zero s)
  \/ (exists s m e, Prim2SF x = SpecFloat.S754_finite s m e).
Proof.
  unfold PrimFloat.is_finite, PrimFloat.is_nan, PrimFloat.is_infinity.
  rewrite !FloatAxioms.eqb_spec, FloatAxioms.abs_spec.
  destruct (Prim2SF x) as [s | s | | s m e]; intros H.
  - left. now exists s.
  - exfalso. cbn in H. vm_compute in H. destruct s; discriminate.
  - discriminate.
  - right. now exists s, m, e.
Qed.

Lemma zero_SF (x : float) s :
  Prim2SF x = SpecFloat.S754_zero s -> PrimFloat.is_zero x = true.
Proof.
  intros E. unfold PrimFloat.is_zero. rewrite FloatAxioms.eqb_spec, E.
  vm_compute. reflexivity.
Qed.

Lemma one_minus_one : PrimFloat.sub (B64.of_Z 1) 1%float = 0%float.
Proof. reflexivity. Qed.

Lemma cancelled_sum (th x0 mt : float) :
  PrimFloat.is_nan th = false ->
  PrimFloat.is_finite x0 = true ->
  PrimFloat.is_finite mt = true -> PrimFloat.is_zero mt = false ->
  PrimFloat.eqb
    (PrimFloat.add th (PrimFloat.div (PrimFloat.mul x0 0%float) mt)) th = true.
Proof.
  intros Hth Hx0 Hmt Hnz.
  apply not_nan_SF in Hth.
  rewrite FloatAxioms.eqb_spec, FloatAxioms.add_spec, FloatAxioms.div_spec,
    FloatAxioms.mul_spec.
  change (Prim2SF 0%float) with (SpecFloat.S754_zero false).
  destruct (finite_SF mt Hmt) as [[s E] | [s [m [e E]]]].
  { rewrite (@zero_SF mt s E) in Hnz. discriminate. }
  rewrite E.
  assert (Hz : exists s', FloatAxioms.SF64div
                 (FloatAxioms.SF64mul (Prim2SF x0) (SpecFloat.S754_zero false))
                 (SpecFloat.S754_finite s m e) = SpecFloat.S754_zero s').
  { destruct (finite_SF x0 Hx0) as [[s0 E0] | [s0 [m0 [e0 E0]]]]; rewrite E0;
      cbn; eexists; reflexivity. }
  destruct Hz as [s' ->].
  unfold SpecFloat.SFeqb.
  destruct (Prim2SF th) as [st | st | | st mth eth].
  - destruct st, s'; reflexivity.
  - cbn. now destruct st.
  - contradiction.
  - cbn. rewrite Z.compare_refl, Pos.compare_refl. now destruct st.
Qed.

(** X15: in double precision, whatever [var0 = sigma] is, once
    [np.exp(-mr*texp)] returns [1.0] (with [mr*texp] finite and not
    zero, [sigma - theta] finite and [theta] not [nan]) the difference
    [1 - e_mr] is zero and the continuous fair strike, which is the mean
    of [avgvar_mv] when that returns, compares equal to [theta]. *)
Theorem mean_collapses_to_theta_binary64
  (exp64 : float -> float) (p : HestonABC (F := float)) (texp : float) :
  exp64 (PrimFloat.opp (PrimFloat.mul (mr p) texp)) = 1%float ->
  PrimFloat.is_nan (theta p) = false ->
  PrimFloat.is_finite (PrimFloat.sub (sigma p) (theta p)) = true ->
  PrimFloat.is_finite (PrimFloat.mul (mr p) texp) = true ->
  PrimFloat.is_zero (PrimFloat.mul (mr p) texp) = false ->
  exists strike : float,
    @fair_strike_var float (Binary64 exp64) p texp None = Ok strike
    /\ PrimFloat.eqb strike (theta p) = true
    /\ forall m v : float,
         @avgvar_mv float (Binary64 exp64) p (sigma p) texp = Ok (m, v) ->
         m = strike.
Proof.
  intros He Hth Hx0 Hmt Hnz.
  eexists. split; [reflexivity |]. split.
  - cbn [mul neg np_exp sub add div Binary64]. rewrite He.
    unfold c1. cbn [of_Z Binary64]. rewrite one_minus_one.
    now apply cancelled_sum.
  - intros m v H.
    apply (@fair_strike_var_cont_generic float (Binary64 exp64)) in H.
    unfold fair_strike_var in H. now injection H as <-.
Qed.

Lemma mean_collapses_to_theta_binary64_tiny_texp :
  exists strike : float,
    @fair_strike_var float (Binary64 exp_rounding_to_one) off_level64
      1e-17%float None = Ok strike
    /\ PrimFloat.eqb strike (theta off_level64) = true
    /\ forall m v : float,
         @avgvar_mv float (Binary64 exp_rounding_to_one) off_level64
           (sigma off_level64) 1e-17%float = Ok (m, v) ->
         m = strike.
Proof.
  apply (@mean_collapses_to_theta_binary64 exp_rounding_to_one off_level64
           1e-17%float); reflexivity.
Defined.

(** ** The average variance over a long horizon *)

Section LongHorizon.

Local Open Scope R_scope.

Lemma Rabs_le_sum3 (a b c A B C : R) :
  Rabs a <= A -> Rabs b <= B -> Rabs c <= C -> Rabs (a - b + c) <= A + B + C.
Proof.
  intros Ha Hb Hc. unfold Rminus.
  eapply Rle_trans; [apply Rabs_triang |].
  eapply Rle_trans; [apply Rplus_le_compat_r, Rabs_triang |].
  rewrite Rabs_Ropp. lra.
Qed.

(** For [mr*texp >= 1] the variance of the average variance is at most
    [(3*|var0 - theta| + |var0| + 4*|theta|) * vov^2 / (mr^2 * texp)]. *)
Lemma avg_var_R_decay (p : HestonR) (var0 texp : R) :
  0 < mrR p -> 0 < texp -> 1 <= mrR p * texp ->
  Rabs (avg_var_R p var0 texp)
  <= (3 * Rabs (var0 - thetaR p) + Rabs var0 + 4 * Rabs (thetaR p))
     * (vovR p * vovR p) / (mrR p * mrR p * texp).
Proof.
  intros Hk Ht Hm. unfold avg_var_R.
  set (x := mrR p * texp) in *.
  set (e := exp (- x)).
  assert (He0 : 0 < e) by apply exp_pos.
  assert (He1 : e <= 1) by (apply exp_neg_le_1; lra).
  assert (Hx : 0 < x) by lra.
  set (th := thetaR p). set (x0 := var0 - th).
  assert (E : vovR p / x * (vovR p / x) * texp
              = vovR p * vovR p / (mrR p * mrR p * texp)).
  { unfold x. field. split; lra. }
  rewrite E, Rabs_mult.
  assert (Hc : 0 <= vovR p * vovR p / (mrR p * mrR p * texp)).
  { unfold Rdiv. apply Rmult_le_pos; [apply Rle_0_sqr |].
    left. apply Rinv_0_lt_compat. repeat apply Rmult_lt_0_compat; assumption. }
  rewrite (Rabs_pos_eq _ Hc).
  replace ((3 * Rabs x0 + Rabs var0 + 4 * Rabs th)
           * (vovR p * vovR p) / (mrR p * mrR p * texp))
    with ((3 * Rabs x0 + Rabs var0 + 4 * Rabs th)
          * (vovR p * vovR p / (mrR p * mrR p * texp)))
    by (field; split; lra).
  apply Rmult_le_compat_r; [exact Hc |].
  replace (var0 - 5 / 2 * th + (var0 - th / 2) * e)
    with (x0 * (1 + e) + th * (e / 2 - 3 / 2)) by (unfold x0; field).
  replace (th - 2 * x0 * e + (1 - e) * (x0 * (1 + e) + th * (e / 2 - 3 / 2)) / x)
    with (th - 2 * e * x0 + (1 - e) * (x0 * (1 + e) + th * (e / 2 - 3 / 2)) * / x)
    by (field; lra).
  assert (Hix : 0 < / x <= 1).
  { split; [now apply Rinv_0_lt_compat |].
    rewrite <- Rinv_1. apply Rinv_le_contravar; lra. }
  pose proof (Rabs_pos x0) as Hx0. pose proof (Rabs_pos th) as Hth.
  pose proof (Rabs_pos var0) as Hv0.
  assert (Hv : Rabs x0 <= Rabs var0 + Rabs th).
  { unfold x0, Rminus. eapply Rle_trans; [apply Rabs_triang |].
    rewrite Rabs_Ropp. lra. }
  apply Rle_trans with (Rabs th + 2 * Rabs x0 + (2 * Rabs x0 + 3 / 2 * Rabs th));
    [| lra].
  apply Rabs_le_sum3.
  - lra.
  - rewrite Rabs_mult, Rabs_mult, (Rabs_pos_eq 2), (Rabs_pos_eq e) by lra. nra.
  - rewrite !Rabs_mult, (Rabs_pos_eq (1 - e)), (Rabs_pos_eq (/ x)) by lra.
    assert (Hin : Rabs (x0 * (1 + e) + th * (e / 2 - 3 / 2))
                  <= 2 * Rabs x0 + 3 / 2 * Rabs th).
    { eapply Rle_trans; [apply Rabs_triang |].
      rewrite !Rabs_mult, (Rabs_pos_eq (1 + e)) by lra.
      assert (Rabs (e / 2 - 3 / 2) <= 3 / 2) by (apply Rabs_le; lra).
      pose proof (Rabs_pos (e / 2 - 3 / 2)). nra. }
    pose proof (Rabs_pos (x0 * (1 + e) + th * (e / 2 - 3 / 2))).
    assert ((1 - e) * Rabs (x0 * (1 + e) + th * (e / 2 - 3 / 2))
            <= 2 * Rabs x0 + 3 / 2 * Rabs th) by nra.
    assert (0 <= (1 - e) * Rabs (x0 * (1 + e) + th * (e / 2 - 3 / 2)))
      by (apply Rmult_le_pos; lra).
    nra.
Qed.

End LongHorizon.

(** X16: in exact arithmetic, for [mr > 0], over a long horizon the
    average variance becomes deterministic: as [texp] grows the mean
    returned by [avgvar_mv] tends to [theta] and the variance to 0. *)
Theorem avgvar_mv_long_horizon (p : HestonR) (var0 : R) :
  (0 < mrR p)%R ->
  forall eps : R, (0 < eps)%R ->
  exists T : R, (0 < T)%R /\
    forall texp : R, (T < texp)%R ->
    exists m v : R,
      avgvar_mv (lift p) (Fin var0) (Fin texp) = Ok (Fin m, Fin v)
      /\ (Rabs (m - thetaR p) < eps)%R
      /\ (Rabs v < eps)%R.
Proof.
  intros Hk eps Heps.
  set (k := mrR p) in *.
  set (B := (3 * Rabs (var0 - thetaR p) + Rabs var0 + 4 * Rabs (thetaR p))%R).
  set (C := (B * (vovR p * vovR p) / (k * k) + Rabs (var0 - thetaR p) / k)%R).
  assert (HB : (0 <= B)%R).
  { unfold B. pose proof (Rabs_pos (var0 - thetaR p)). pose proof (Rabs_pos var0).
    pose proof (Rabs_pos (thetaR p)). lra. }
  assert (Hkk : (0 < k * k)%R) by now apply Rmult_lt_0_compat.
  assert (HC1 : (0 <= B * (vovR p * vovR p) / (k * k))%R).
  { unfold Rdiv. apply Rmult_le_pos; [| left; now apply Rinv_0_lt_compat].
    apply Rmult_le_pos; [exact HB | apply Rle_0_sqr]. }
  assert (HC2 : (0 <= Rabs (var0 - thetaR p) / k)%R).
  { unfold Rdiv. apply Rmult_le_pos; [apply Rabs_pos | left; now apply Rinv_0_lt_compat]. }
  assert (Hik : (0 < / k)%R) by now apply Rinv_0_lt_compat.
  assert (HCe : (0 <= C / eps)%R).
  { unfold Rdiv. apply Rmult_le_pos; [unfold C; lra | left; now apply Rinv_0_lt_compat]. }
  exists (/ k + C / eps)%R. split; [lra |].
  intros texp Ht.
  assert (Ht0 : (0 < texp)%R) by lra.
  assert (Hx : (1 <= k * texp)%R).
  { assert (H : (/ k < texp)%R) by lra.
    apply (Rmult_lt_compat_l k) in H; [| exact Hk].
    replace (k * / k)%R with 1%R in H by (field; lra). lra. }
  assert (HCt : (C / texp < eps)%R).
  { assert (H : (C / eps < texp)%R) by lra.
    apply (Rmult_lt_compat_r eps) in H; [| exact Heps].
    replace (C / eps * eps)%R with C in H by (field; lra).
    apply (Rmult_lt_reg_r texp); [exact Ht0 |].
    replace (C / texp * texp)%R with C by (field; lra). lra. }
  assert (Hit : (0 < / texp)%R) by now apply Rinv_0_lt_compat.
  exists (avg_mean_R p var0 texp), (avg_var_R p var0 texp).
  split; [apply avgvar_mv_ideal; fold k; lra |].
  split.
  - assert (Hx0 : (0 < k * texp)%R) by lra.
    destruct (ratio_bounds Hx0) as [_ Hhi]. pose proof (ratio_pos Hx0) as Hlo.
    unfold avg_mean_R. fold k.
    replace (thetaR p + (var0 - thetaR p) * (1 - exp (- (k * texp))) / (k * texp)
             - thetaR p)%R
      with ((var0 - thetaR p) * (1 - exp (- (k * texp))) * / (k * texp))%R
      by (field; lra).
    pose proof (exp_pos (- (k * texp))) as He0.
    assert (He1 : (exp (- (k * texp)) <= 1)%R) by (apply exp_neg_le_1; lra).
    rewrite !Rabs_mult, (Rabs_pos_eq (1 - exp (- (k * texp)))) by lra.
    assert (Hi : (0 < / (k * texp))%R) by now apply Rinv_0_lt_compat.
    rewrite (Rabs_pos_eq (/ (k * texp))) by lra.
    apply Rle_lt_trans with (C / texp)%R; [| exact HCt].
    apply Rle_trans with (Rabs (var0 - thetaR p) / k / texp)%R.
    + replace (Rabs (var0 - thetaR p) / k / texp)%R
        with (Rabs (var0 - thetaR p) * 1 * / (k * texp))%R by (field; lra).
      apply Rmult_le_compat_r; [lra |].
      apply Rmult_le_compat_l; [apply Rabs_pos | lra].
    + assert (HA : (Rabs (var0 - thetaR p) / k <= C)%R) by (unfold C; lra).
      exact (Rmult_le_compat_r (/ texp) _ _ (Rlt_le _ _ Hit) HA).
  - apply Rle_lt_trans with (C / texp)%R; [| exact HCt].
    eapply Rle_trans; [apply avg_var_R_decay; fold k; lra |].
    fold k B.
    replace (B * (vovR p * vovR p) / (k * k * texp))%R
      with (B * (vovR p * vovR p) / (k * k) / texp)%R by (field; lra).
    assert (HA : (B * (vovR p * vovR p) / (k * k) <= C)%R) by (unfold C; lra).
    exact (Rmult_le_compat_r (/ texp) _ _ (Rlt_le _ _ Hit) HA).
Qed.

Lemma avgvar_mv_long_horizon_scenario :
  (0 < mrR scenario)%R
  /\ forall eps : R, (0 < eps)%R ->
     exists T : R, (0 < T)%R /\
       forall texp : R, (T < texp)%R ->
       exists m v : R,
         avgvar_mv (lift scenario) (Fin (9 / 100)) (Fin texp)
         = Ok (Fin m, Fin v)
         /\ (Rabs (m - thetaR scenario) < eps)%R
         /\ (Rabs v < eps)%R.
Proof.
  assert (Hk : (0 < mrR scenario)%R) by (simpl; lra).
  split; [exact Hk |].
  exact (@avgvar_mv_long_horizon scenario (9 / 100) Hk).
Defined.
